(** * Summarization pipeline of AiTranslationAPP: chunker, merge pass,
      orchestrator, text helpers and text export

    A shallow embedding of [summarizer/summarize.py], of the text
    helpers of [utils.py], and of [validate_export_inputs],
    [format_content] and [export_to_txt] from [summarizer/export.py].

    - Python [str] is a list of Unicode code points.
    - Python [float] is the kernel's binary64 ([PrimFloat]); [int] is [Z].
    - A Python call that may raise returns a [result]; the module global
      [_cached_pipeline], and the calls made to the transformers pipeline,
      live in an explicit [world] threaded by a state-and-exception monad.
    - An exception either derives from [Exception] or does not
      ([KeyboardInterrupt], [SystemExit], [GeneratorExit]); a clause
      [except Exception] catches the first kind only. Exceptions arise
      where the source calls the library or a primitive that can fail;
      a signal delivered between two statements is not modelled.
    - Logging is not modelled. *)

From Stdlib Require Import Ascii String.
From Stdlib Require Import ZArith NArith List Bool Lia.
From Stdlib Require Import PrimFloat SpecFloat FloatOps.
Import ListNotations.

Set Warnings "-inexact-float".

Local Open Scope Z_scope.

(* ================================================================== *)
(** * The Python runtime the source relies on *)
(* ================================================================== *)

Module Py.

(** ** Strings *)

Definition char := N.
Definition str := list char.

(** A Rocq string literal read as a Python [str] (ASCII only). *)
Definition lit (s : string) : str := map N_of_ascii (list_ascii_of_string s).

(** [str.isspace] on one code point; the same set decides [str.split()],
    [str.strip()] and the regex class [\s] on [str] patterns. *)
Definition isspace (c : char) : bool :=
  ((9 <=? c) && (c <=? 13) || (28 <=? c) && (c <=? 32)
   || (c =? 133) || (c =? 160) || (c =? 5760)
   || (8192 <=? c) && (c <=? 8202)
   || (c =? 8232) || (c =? 8233) || (c =? 8239) || (c =? 8287)
   || (c =? 12288))%N.

Definition space : char := 32%N.

(** Truthiness of a sequence: non-empty. *)
Definition truthy {A} (l : list A) : bool :=
  match l with [] => false | _ :: _ => true end.

(** [str.split()] with no argument: the maximal runs of non-whitespace.
    [cur] is the word being read, most recent character first. *)
Definition flush (cur : str) : list str :=
  match cur with [] => [] | _ :: _ => [rev cur] end.

Fixpoint split_go (cur : str) (s : str) : list str :=
  match s with
  | [] => flush cur
  | c :: s' =>
      if isspace c then flush cur ++ split_go [] s'
      else split_go (c :: cur) s'
  end.

Definition split (s : str) : list str := split_go [] s.

(** [str.strip()] with no argument. *)
Fixpoint lstrip (s : str) : str :=
  match s with
  | [] => []
  | c :: s' => if isspace c then lstrip s' else s
  end.

Definition rstrip (s : str) : str := rev (lstrip (rev s)).
Definition strip (s : str) : str := rstrip (lstrip s).

(** [sep.join(l)]. *)
Fixpoint join (sep : str) (l : list str) : str :=
  match l with
  | [] => []
  | [x] => x
  | x :: rest => x ++ sep ++ join sep rest
  end.

(** ** Exceptions *)

(** The exceptions of a run, each with its [str(e)]. The first four
    derive from [Exception]; [PipelineError] stands for any other
    [Exception] the transformers library raises. The last three derive
    from [BaseException] only and stand for every exception of that
    kind that a library call lets through. *)
Inductive exn :=
| ValueError (msg : str)
| TypeError (msg : str)
| OverflowError (msg : str)
| PipelineError (msg : str)
| KeyboardInterrupt (msg : str)
| SystemExit (msg : str)
| GeneratorExit (msg : str).

(** [str(e)]. *)
Definition str_of_exn (e : exn) : str :=
  match e with
  | ValueError m | TypeError m | OverflowError m | PipelineError m
  | KeyboardInterrupt m | SystemExit m | GeneratorExit m => m
  end.

(** [isinstance(e, Exception)]: what a clause [except Exception]
    catches. *)
Definition is_exception (e : exn) : bool :=
  match e with
  | ValueError _ | TypeError _ | OverflowError _ | PipelineError _ => true
  | KeyboardInterrupt _ | SystemExit _ | GeneratorExit _ => false
  end.

Inductive result (A : Type) :=
| Ok (a : A)
| Raise (e : exn).
Arguments Ok {A} a.
Arguments Raise {A} e.

Definition bind {A B} (r : result A) (k : A -> result B) : result B :=
  match r with Ok a => k a | Raise e => Raise e end.

(** ** Slices and ranges *)

(** A slice bound clamped the way [l[lo:hi]] clamps it. *)
Definition clamp (len i : Z) : Z :=
  if i <? 0 then Z.max 0 (len + i) else Z.min i len.

(** [l[lo:hi]]. *)
Definition slice {A} (l : list A) (lo hi : Z) : list A :=
  let len := Z.of_nat (length l) in
  let a := clamp len lo in
  let b := clamp len hi in
  firstn (Z.to_nat (b - a)) (skipn (Z.to_nat a) l).

(** [range(start, stop, step)], as the list of its values. *)
Definition range (start stop step : Z) : result (list Z) :=
  if step =? 0 then Raise (ValueError (lit "range() arg 3 must not be zero"))
  else
    let n := if 0 <? step then (stop - start + step - 1) / step
             else (start - stop - step - 1) / (- step) in
    Ok (map (fun j => start + Z.of_nat j * step) (seq 0 (Z.to_nat n))).

(** ** Floats *)

(** [float(z)]: the nearest binary64, ties to even. *)
Definition float_of_Z (z : Z) : float :=
  SF2Prim (binary_normalize prec emax z 0 false).

(** The implicit conversion of an [int] operand in [int / float]. *)
Definition float_of_int (z : Z) : result float :=
  let f := float_of_Z z in
  if is_infinity f
  then Raise (OverflowError (lit "int too large to convert to float"))
  else Ok f.

(** [int(f)]: truncation towards zero. *)
Definition int_of_float (f : float) : result Z :=
  match Prim2SF f with
  | S754_zero _ => Ok 0
  | S754_finite s m e =>
      let a := Z.shiftl (Zpos m) e in
      Ok (if s then - a else a)
  | S754_infinity _ =>
      Raise (OverflowError (lit "cannot convert float infinity to integer"))
  | S754_nan =>
      Raise (ValueError (lit "cannot convert float NaN to integer"))
  end.

(** [f > z] for a float and an int: Python compares the exact values. *)
Definition float_gt_int (f : float) (z : Z) : bool :=
  match Prim2SF f with
  | S754_nan => false
  | S754_infinity s => negb s
  | S754_zero _ => z <? 0
  | S754_finite s m e =>
      let v := if s then Zneg m else Zpos m in
      if 0 <=? e then z <? v * 2 ^ e else z * 2 ^ (- e) <? v
  end.

(** [n * 1.3] for a length [n] (a length is below [2^63], so its
    conversion cannot overflow). *)
Definition times_1_3 (n : nat) : float :=
  (float_of_Z (Z.of_nat n) * 1.3)%float.

(** ** The regex split [re.split(r'(?<=[.!?])\s+', text)] *)

(** [.], [!] or [?]. *)
Definition is_terminator (c : char) : bool :=
  ((c =? 46) || (c =? 33) || (c =? 63))%N.

(** The lookbehind, on the piece read so far (most recent first). *)
Definition after_terminator (cur : str) : bool :=
  match cur with
  | [] => false
  | p :: _ => is_terminator p
  end.

(** One left-to-right scan. [cur] is the piece being read, most recent
    character first; [in_match] holds while the scan is inside a matched
    whitespace run (the match is greedy, so the whole run is consumed).
    A match can only start at a whitespace character that follows a
    terminator; the piece after the last match is always emitted, also
    when it is empty. *)
Fixpoint re_split_go (in_match : bool) (cur : str) (s : str) : list str :=
  match s with
  | [] => [rev cur]
  | c :: s' =>
      if isspace c then
        if in_match then re_split_go true cur s'
        else if after_terminator cur then rev cur :: re_split_go true [] s'
        else re_split_go false (c :: cur) s'
      else re_split_go false (c :: cur) s'
  end.

Definition re_split_sentences (text : str) : list str :=
  re_split_go false [] text.

End Py.

Import Py.

(* ================================================================== *)
(** * summarizer/summarize.py *)
(* ================================================================== *)

Module Summarize.

(** ** chunk_text *)

(** [int(max_tokens / 1.3)]. *)
Definition chunk_size_of (max_tokens : Z) : result Z :=
  bind (float_of_int max_tokens) (fun f => int_of_float (f / 1.3)%float).

(** The branch taken when a sentence overflows an empty current chunk:
[[
    words = sentence.split()
    chunk_size = int(max_tokens / 1.3)
    for i in range(0, len(words), chunk_size):
        chunks.append(' '.join(words[i:i+chunk_size]))
]]
    as the list of the chunks it appends. *)
Definition hard_split (sentence : str) (max_tokens : Z) : result (list str) :=
  let words := split sentence in
  bind (chunk_size_of max_tokens) (fun chunk_size =>
  bind (range 0 (Z.of_nat (length words)) chunk_size) (fun idx =>
  Ok (map (fun i => join [space] (slice words i (i + chunk_size))) idx))).

(** The three locals of the loop. *)
Record chunker := {
  chunks : list str;
  current_chunk : list str;
  current_length : float
}.

(** One iteration of [for sentence in sentences]. *)
Definition chunk_step (max_tokens : Z) (st : chunker) (sentence : str)
  : result chunker :=
  let sentence_tokens := times_1_3 (length (split sentence)) in
  if float_gt_int (current_length st + sentence_tokens)%float max_tokens then
    if truthy (current_chunk st) then
      Ok {| chunks := chunks st ++ [join [space] (current_chunk st)];
            current_chunk := [sentence];
            current_length := sentence_tokens |}
    else
      bind (hard_split sentence max_tokens) (fun groups =>
      Ok {| chunks := chunks st ++ groups;
            current_chunk := current_chunk st;
            current_length := current_length st |})
  else
    Ok {| chunks := chunks st;
          current_chunk := current_chunk st ++ [sentence];
          current_length := (current_length st + sentence_tokens)%float |}.

Fixpoint chunk_loop (max_tokens : Z) (st : chunker) (sentences : list str)
  : result chunker :=
  match sentences with
  | [] => Ok st
  | sentence :: rest =>
      bind (chunk_step max_tokens st sentence) (fun st' =>
      chunk_loop max_tokens st' rest)
  end.

(** The trailing [if current_chunk: chunks.append(' '.join(current_chunk))]. *)
Definition finish (st : chunker) : list str :=
  if truthy (current_chunk st)
  then chunks st ++ [join [space] (current_chunk st)]
  else chunks st.

Definition chunk_text (text : str) (max_tokens : Z) : result (list str) :=
  let sentences := re_split_sentences text in
  bind (chunk_loop max_tokens
          {| chunks := []; current_chunk := []; current_length := 0%float |}
          sentences)
       (fun st => Ok (finish st)).

(** ** _extractive_fallback *)

Definition _extractive_fallback (text : str) (num_sentences : Z) : str :=
  let sentences := re_split_sentences text in
  let summary_sentences := slice sentences 0 num_sentences in
  join [space] summary_sentences.

(** ** The process and the transformers pipeline *)

(** The calls a run makes, in the order it makes them: what a test
    double standing in for the library and for the two helpers would
    record. *)
Inductive event :=
| EvLoad                                  (* pipeline("summarization", ...) *)
| EvChunk (text : str) (max_tokens : Z)   (* summarize calls chunk_text *)
| EvModel (input : str) (max_length min_length : Z)
                                          (* the cached pipeline is called *)
| EvMerge (summary_chunks : list str).    (* summarize calls merge_summaries *)

Section Pipeline.

(** The pipeline object, and how the library behaves: both the
    constructor and a call may return or raise, and may depend on
    everything that happened before. The result of a call stands for
    [pipe(x, ...)[0]['summary_text']]. *)
Variable Handle : Type.
Variable load : list event -> result Handle.
Variable run : Handle -> list event -> str -> Z -> Z -> result str.

Record world := {
  _cached_pipeline : option Handle;
  history : list event
}.

Definition M (A : Type) : Type := world -> result A * world.

Definition ret {A} (a : A) : M A := fun w => (Ok a, w).

Definition mbind {A B} (m : M A) (k : A -> M B) : M B :=
  fun w => match m w with
           | (Ok a, w') => k a w'
           | (Raise e, w') => (Raise e, w')
           end.

(** [try: body  except Exception as e: handler e]. An exception that
    does not derive from [Exception] is not caught. *)
Definition try_except {A} (body : M A) (handler : exn -> M A) : M A :=
  fun w => match body w with
           | (Ok a, w') => (Ok a, w')
           | (Raise e, w') =>
               if is_exception e then handler e w' else (Raise e, w')
           end.

Definition lift {A} (r : result A) : M A := fun w => (r, w).

Definition record (ev : event) : M unit :=
  fun w => (Ok tt, {| _cached_pipeline := _cached_pipeline w;
                      history := history w ++ [ev] |}).

Notation "x <- m ;; k" := (mbind m (fun x => k))
  (at level 61, m at next level, right associativity).
Notation "m ;;; k" := (mbind m (fun _ => k))
  (at level 61, right associativity).

(** [if _cached_pipeline is None: _cached_pipeline = pipeline(...)]. *)
Definition ensure_pipeline : M unit :=
  fun w => match _cached_pipeline w with
           | Some _ => (Ok tt, w)
           | None =>
               let h := history w ++ [EvLoad] in
               match load (history w) with
               | Ok p => (Ok tt, {| _cached_pipeline := Some p; history := h |})
               | Raise e => (Raise e, {| _cached_pipeline := None; history := h |})
               end
           end.

(** [_cached_pipeline(x, max_length=..., min_length=..., do_sample=False)
    [0]['summary_text']]; calling [None] is a [TypeError]. *)
Definition call_pipeline (x : str) (max_length min_length : Z) : M str :=
  fun w => match _cached_pipeline w with
           | None =>
               (Raise (TypeError (lit "'NoneType' object is not callable")), w)
           | Some p =>
               (run p (history w) x max_length min_length,
                {| _cached_pipeline := Some p;
                   history := history w ++ [EvModel x max_length min_length] |})
           end.

(** ** merge_summaries *)

Definition merge_summaries (summary_chunks : list str)
  (max_length min_length : Z) : M str :=
  if negb (truthy summary_chunks) then ret []
  else match summary_chunks with
  | [only] => ret only
  | _ =>
      let combined := join [space] summary_chunks in
      if Z.of_nat (length (split combined)) <=? max_length then ret combined
      else
        try_except
          (call_pipeline combined max_length min_length)
          (fun _ =>
             let words := slice (split combined) 0 max_length in
             ret (join [space] words))
  end.

(** ** summarize *)

(** [for i, chunk in enumerate(chunks): summaries.append(pipe(chunk, ...))]. *)
Fixpoint summarize_chunks (chunks : list str) (max_length min_length : Z)
  : M (list str) :=
  match chunks with
  | [] => ret []
  | chunk :: rest =>
      chunk_summary <- call_pipeline chunk max_length min_length ;;
      summaries <- summarize_chunks rest max_length min_length ;;
      ret (chunk_summary :: summaries)
  end.

(** The branch [if estimated_tokens > max_tokens]. *)
Definition summarize_chunked (text : str) (max_tokens : Z)
  (max_length min_length : Z) : M (str * option str) :=
  record (EvChunk text max_tokens) ;;;
  chunks <- lift (chunk_text text max_tokens) ;;
  summaries <- summarize_chunks chunks max_length min_length ;;
  record (EvMerge summaries) ;;;
  final_summary <- merge_summaries summaries max_length min_length ;;
  ret (final_summary, None).

(** Its [else] branch. *)
Definition summarize_direct (text : str) (max_length min_length : Z)
  : M (str * option str) :=
  summary <- call_pipeline text max_length min_length ;;
  ret (summary, None).

(** The body of the [try] block. *)
Definition summarize_try (text : str) (max_length min_length : Z)
  : M (str * option str) :=
  if negb (truthy text) || negb (truthy (strip text)) then
    let error_msg := lit "Input text is empty" in
    ret ([], Some error_msg)
  else
    ensure_pipeline ;;;
    let max_tokens := 1024 in
    let estimated_tokens := times_1_3 (length (split text)) in
    if float_gt_int estimated_tokens max_tokens
    then summarize_chunked text max_tokens max_length min_length
    else summarize_direct text max_length min_length.

(** The [except Exception as e] block, with its own [try]. *)
Definition summarize_except (text : str) (e : exn) : M (str * option str) :=
  let error_msg := lit "Summarization error: " ++ str_of_exn e in
  try_except
    (let fallback_summary := _extractive_fallback text 3 in
     ret (fallback_summary, None))
    (fun fallback_error => ret ([], Some error_msg)).

(** The [method] argument of the source is never read and is left out.
    The result is the pair [(summary_text, error_message)]. *)
Definition summarize (text : str) (max_length min_length : Z)
  : M (str * option str) :=
  try_except (summarize_try text max_length min_length)
             (summarize_except text).

(** ** clear_pipeline_cache *)

Definition clear_pipeline_cache : M unit :=
  fun w => (Ok tt, {| _cached_pipeline := None; history := history w |}).

End Pipeline.

Arguments _cached_pipeline {Handle} w.
Arguments history {Handle} w.
Arguments Build_world {Handle} _ _.
Arguments ret {Handle A} a.
Arguments mbind {Handle A B} m k.
Arguments try_except {Handle A} body handler.
Arguments lift {Handle A} r.
Arguments record {Handle} ev.
Arguments ensure_pipeline {Handle} load.
Arguments call_pipeline {Handle} run x max_length min_length.
Arguments merge_summaries {Handle} run summary_chunks max_length min_length.
Arguments summarize_chunks {Handle} run chunks max_length min_length.
Arguments summarize_chunked {Handle} run text max_tokens max_length min_length.
Arguments summarize_direct {Handle} run text max_length min_length.
Arguments summarize_try {Handle} load run text max_length min_length.
Arguments summarize_except {Handle} text e.
Arguments summarize {Handle} load run text max_length min_length.
Arguments clear_pipeline_cache {Handle}.

End Summarize.

(* ================================================================== *)
(** * summarizer/export.py *)
(* ================================================================== *)

Module ExportPy.

Definition validate_export_inputs (transcript summary : str) : option str :=
  if negb (truthy transcript) || negb (truthy (strip transcript)) then
    Some (lit "Transcript is empty. Cannot export.")
  else if negb (truthy summary) || negb (truthy (strip summary)) then
    Some (lit "Summary is empty. Cannot export.")
  else None.

End ExportPy.

(* ================================================================== *)
(** * summarizer/summarize.py: the cache report *)
(* ================================================================== *)

Module SummarizeInfo.

(** The dict [{'is_loaded': ..., 'model': ...}]. *)
Record pipeline_info := {
  is_loaded : bool;
  model : option str
}.

(** [get_pipeline_info]. ['is_loaded'] tests [is not None]; ['model']
    tests the truth value of the cached object, which is the object's
    own business ([handle_truthy]). *)
Definition get_pipeline_info {Handle : Type} (handle_truthy : Handle -> bool)
  (w : Summarize.world Handle) : pipeline_info :=
  {| is_loaded := match Summarize._cached_pipeline w with
                  | Some _ => true
                  | None => false
                  end;
     model := match Summarize._cached_pipeline w with
              | Some p => if handle_truthy p
                          then Some (lit "facebook/bart-large-cnn")
                          else None
              | None => None
              end |}.

End SummarizeInfo.

(* ================================================================== *)
(** * utils.py *)
(* ================================================================== *)

Module Utils.

(** ** More of the runtime *)

(** [s.rfind(c)] for a one-character [c]: the highest index at which
    [c] occurs, or [-1]. [i] is the index of the head of [s], [best] the
    answer so far. *)
Fixpoint rfind_from (c : char) (s : str) (i best : Z) : Z :=
  match s with
  | [] => best
  | x :: s' => rfind_from c s' (i + 1) (if (x =? c)%N then i else best)
  end.

Definition rfind (c : char) (s : str) : Z := rfind_from c s 0 (-1).

(** [s.strip(chars)]. *)
Fixpoint lstrip_chars (chars : str) (s : str) : str :=
  match s with
  | [] => []
  | c :: s' => if existsb (N.eqb c) chars then lstrip_chars chars s' else s
  end.

Definition strip_chars (chars : str) (s : str) : str :=
  rev (lstrip_chars chars (rev (lstrip_chars chars s))).

(** [os.path.splitext(p)], that is [genericpath._splitext(p, sep, None,
    '.')] with [sep = '/']. The extension starts at the last dot, unless
    that dot comes before the last separator or every character between
    the separator and the dot is a dot too. *)
Definition splitext (p : str) : str * str :=
  let sepIndex := rfind 47%N p in
  let dotIndex := rfind 46%N p in
  let len := Z.of_nat (length p) in
  if (sepIndex <? dotIndex)
     && existsb (fun c => negb (c =? 46)%N) (slice p (sepIndex + 1) dotIndex)
  then (slice p 0 dotIndex, slice p dotIndex len)
  else (p, []).

(** ** count_words *)

Definition count_words (text : str) : nat :=
  if negb (truthy text) then 0%nat else length (split text).

(** ** truncate_text *)

Definition truncate_text (text : str) (max_length : Z) (suffix : str) : str :=
  if Z.of_nat (length text) <=? max_length then text
  else slice text 0 (max_length - Z.of_nat (length suffix)) ++ suffix.

(** ** sanitize_filename *)

(** The character class of the substitution: [<], [>], [:], the double
    quote, [/], the backslash, [|], [?] and [*]. *)
Definition is_invalid (c : char) : bool :=
  ((c =? 60) || (c =? 62) || (c =? 58) || (c =? 34) || (c =? 47)
   || (c =? 92) || (c =? 124) || (c =? 63) || (c =? 42))%N.

(** The [re.sub] of that class by ['_']. *)
Definition replace_invalid (filename : str) : str :=
  map (fun c => if is_invalid c then 95%N else c) filename.

(** The function up to its length limit: substitution, stripping of
    dots and spaces, and the name used when nothing is left. *)
Definition clean_filename (filename : str) : str :=
  let filename := replace_invalid filename in
  let filename := strip_chars (lit ". ") filename in
  if negb (truthy filename) then lit "untitled" else filename.

(** The length limit: the name is cut, the extension kept. *)
Definition limit_length (filename : str) : str :=
  let max_length := 200 in
  if max_length <? Z.of_nat (length filename) then
    let (name, ext) := splitext filename in
    let name := slice name 0 (max_length - Z.of_nat (length ext)) in
    name ++ ext
  else filename.

Definition sanitize_filename (filename : str) : str :=
  limit_length (clean_filename filename).

End Utils.

(* ================================================================== *)
(** * summarizer/export.py: the text report *)
(* ================================================================== *)

(** ** The runtime the report needs *)

Module PyText.

(** The exceptions of this part. [UnicodeEncodeError] carries what
    Python's carries: the codec, the string, the offending range
    [start, stop) and the reason. *)
Inductive error :=
| ZeroDivisionError (msg : str)
| UnicodeEncodeError (encoding : str) (object : str) (start stop : nat)
    (reason : str)
| Exception_ (msg : str).

Inductive outcome (A : Type) :=
| Returns (a : A)
| Raises (e : error).
Arguments Returns {A} a.
Arguments Raises {A} e.

(** *** Integers and floats as text *)

Fixpoint decimal_digits (d : Decimal.uint) : str :=
  match d with
  | Decimal.Nil => []
  | Decimal.D0 d => 48%N :: decimal_digits d
  | Decimal.D1 d => 49%N :: decimal_digits d
  | Decimal.D2 d => 50%N :: decimal_digits d
  | Decimal.D3 d => 51%N :: decimal_digits d
  | Decimal.D4 d => 52%N :: decimal_digits d
  | Decimal.D5 d => 53%N :: decimal_digits d
  | Decimal.D6 d => 54%N :: decimal_digits d
  | Decimal.D7 d => 55%N :: decimal_digits d
  | Decimal.D8 d => 56%N :: decimal_digits d
  | Decimal.D9 d => 57%N :: decimal_digits d
  end.

(** [str(n)] for [n >= 0]. *)
Definition str_of_N (n : N) : str := decimal_digits (N.to_uint n).

(** [str(z)]. *)
Definition str_of_int (z : Z) : str :=
  if z <? 0 then lit "-" ++ str_of_N (Z.to_N (- z)) else str_of_N (Z.to_N z).

Fixpoint hex_digits (d : Hexadecimal.uint) : str :=
  match d with
  | Hexadecimal.Nil => []
  | Hexadecimal.D0 d => 48%N :: hex_digits d
  | Hexadecimal.D1 d => 49%N :: hex_digits d
  | Hexadecimal.D2 d => 50%N :: hex_digits d
  | Hexadecimal.D3 d => 51%N :: hex_digits d
  | Hexadecimal.D4 d => 52%N :: hex_digits d
  | Hexadecimal.D5 d => 53%N :: hex_digits d
  | Hexadecimal.D6 d => 54%N :: hex_digits d
  | Hexadecimal.D7 d => 55%N :: hex_digits d
  | Hexadecimal.D8 d => 56%N :: hex_digits d
  | Hexadecimal.D9 d => 57%N :: hex_digits d
  | Hexadecimal.Da d => 97%N :: hex_digits d
  | Hexadecimal.Db d => 98%N :: hex_digits d
  | Hexadecimal.Dc d => 99%N :: hex_digits d
  | Hexadecimal.Dd d => 100%N :: hex_digits d
  | Hexadecimal.De d => 101%N :: hex_digits d
  | Hexadecimal.Df d => 102%N :: hex_digits d
  end.

(** ["%0<width>x" % n]. *)
Definition hex_padded (width : nat) (n : N) : str :=
  let digits := hex_digits (N.to_hex_uint n) in
  repeat 48%N (width - length digits) ++ digits.

(** [a / b] for two ints: the quotient correctly rounded to binary64
    (ties to even), or [ZeroDivisionError]. The quotient is computed
    with 66 extra bits and a sticky bit, then rounded once. (Where the
    quotient is too large for a float Python raises [OverflowError];
    the operands here are lengths, below [2^63].) *)
Definition rounded_quotient (a b : Z) : float :=
  let s := Z.log2 (Z.abs b) + 66 in
  let q := (Z.abs a * 2 ^ s) / Z.abs b in
  let r := (Z.abs a * 2 ^ s) mod Z.abs b in
  let m := 2 * q + (if r =? 0 then 0 else 1) in
  let negative := xorb (a <? 0) (b <? 0) in
  SF2Prim (binary_normalize prec emax (if negative then - m else m)
             (- (s + 1)) negative).

Definition true_div (a b : Z) : outcome float :=
  if b =? 0 then Raises (ZeroDivisionError (lit "division by zero"))
  else Returns (rounded_quotient a b).

(** A value that is an [int] on one path and a [float] on another. *)
Inductive number :=
| PyInt (z : Z)
| PyFloat (f : float).

(** [m * 2^e * 10] rounded to the nearest integer, ties to even. *)
Definition tenths (m : positive) (e : Z) : Z :=
  if 0 <=? e then Zpos m * 2 ^ e * 10
  else
    let den := 2 ^ (- e) in
    let q := (Zpos m * 10) / den in
    let r := (Zpos m * 10) mod den in
    if den <? 2 * r then q + 1
    else if (2 * r =? den) && Z.odd q then q + 1
    else q.

(** [format(x, '.1f')] for a float: the exact value rounded to one
    decimal, ties to even, the sign kept. *)
Definition format_1f_float (f : float) : str :=
  match Prim2SF f with
  | S754_nan => lit "nan"
  | S754_infinity s => if s then lit "-inf" else lit "inf"
  | S754_zero s => (if s then lit "-" else []) ++ lit "0.0"
  | S754_finite s m e =>
      let t := tenths m e in
      (if s then lit "-" else [])
      ++ str_of_N (Z.to_N (t / 10)) ++ lit "." ++ str_of_N (Z.to_N (t mod 10))
  end.

(** [f"{x:.1f}"]; an [int] is converted to a float first. *)
Definition format_1f (x : number) : str :=
  match x with
  | PyInt z => format_1f_float (float_of_Z z)
  | PyFloat f => format_1f_float f
  end.

(** *** UTF-8 *)

(** The code points U+D800 to U+DFFF. *)
Definition is_surrogate (c : char) : bool :=
  ((55296 <=? c) && (c <=? 57343))%N.

(** The bytes of one code point below U+110000 that is no surrogate. *)
Definition encode_char (c : char) : list N :=
  (if c <? 128 then [c]
   else if c <? 2048 then [192 + c / 64; 128 + c mod 64]
   else if c <? 65536 then
     [224 + c / 4096; 128 + (c / 64) mod 64; 128 + c mod 64]
   else
     [240 + c / 262144; 128 + (c / 4096) mod 64; 128 + (c / 64) mod 64;
      128 + c mod 64])%N.

(** The length of the run of surrogates at the head of [s]. *)
Fixpoint surrogate_run (s : str) : nat :=
  match s with
  | c :: s' => if is_surrogate c then S (surrogate_run s') else 0
  | [] => 0
  end.

(** [s.encode('utf-8')] from index [i] of [whole] on. The first
    surrogate stops the encoder, which reports the whole run of
    surrogates that starts there. *)
Fixpoint encode_from (whole : str) (i : nat) (s : str) : outcome (list N) :=
  match s with
  | [] => Returns []
  | c :: s' =>
      if is_surrogate c then
        Raises (UnicodeEncodeError (lit "utf-8") whole i (i + surrogate_run s)
                  (lit "surrogates not allowed"))
      else
        match encode_from whole (S i) s' with
        | Returns bs => Returns (encode_char c ++ bs)
        | Raises e => Raises e
        end
  end.

Definition encode_utf8 (s : str) : outcome (list N) := encode_from s 0 s.

(** A continuation byte within [lo, hi]. *)
Definition cont (lo hi b : N) : bool := ((lo <=? b) && (b <=? hi))%N.

(** [bs.decode('utf-8')], strict: [None] stands for
    [UnicodeDecodeError]. *)
Fixpoint decode_utf8 (bs : list N) : option str :=
  match bs with
  | [] => Some []
  | b0 :: rest =>
      if (b0 <? 128)%N then option_map (cons b0) (decode_utf8 rest)
      else if cont 194 223 b0 then
        match rest with
        | b1 :: rest1 =>
            if cont 128 191 b1
            then option_map (cons ((b0 - 192) * 64 + (b1 - 128))%N)
                   (decode_utf8 rest1)
            else None
        | _ => None
        end
      else if cont 224 239 b0 then
        match rest with
        | b1 :: b2 :: rest2 =>
            if cont (if (b0 =? 224)%N then 160 else 128)
                    (if (b0 =? 237)%N then 159 else 191) b1
               && cont 128 191 b2
            then option_map
                   (cons ((b0 - 224) * 4096 + (b1 - 128) * 64 + (b2 - 128))%N)
                   (decode_utf8 rest2)
            else None
        | _ => None
        end
      else if cont 240 244 b0 then
        match rest with
        | b1 :: b2 :: b3 :: rest3 =>
            if cont (if (b0 =? 240)%N then 144 else 128)
                    (if (b0 =? 244)%N then 143 else 191) b1
               && cont 128 191 b2 && cont 128 191 b3
            then option_map
                   (cons ((b0 - 240) * 262144 + (b1 - 128) * 4096
                          + (b2 - 128) * 64 + (b3 - 128))%N)
                   (decode_utf8 rest3)
            else None
        | _ => None
        end
      else None
  end.

(** [str(e)]. *)
Definition str_of_error (e : error) : str :=
  match e with
  | ZeroDivisionError msg => msg
  | Exception_ msg => msg
  | UnicodeEncodeError encoding object start stop reason =>
      if (stop =? S start)%nat then
        let badchar := nth start object 0%N in
        lit "'" ++ encoding ++ lit "' codec can't encode character '"
        ++ (if (badchar <=? 255)%N then lit "\x" ++ hex_padded 2 badchar
            else if (badchar <=? 65535)%N then lit "\u" ++ hex_padded 4 badchar
            else lit "\U" ++ hex_padded 8 badchar)
        ++ lit "' in position " ++ str_of_N (N.of_nat start)
        ++ lit ": " ++ reason
      else
        lit "'" ++ encoding ++ lit "' codec can't encode characters in position "
        ++ str_of_N (N.of_nat start) ++ lit "-"
        ++ str_of_N (N.of_nat (stop - 1)) ++ lit ": " ++ reason
  end.

End PyText.

(** ** format_content and export_to_txt *)

Module ExportTxt.

Import PyText.

(** [compression_ratio]: a float when the transcript has a word, the
    int [0] otherwise. *)
Definition compression_ratio (word_count_summary word_count_transcript : nat)
  : outcome number :=
  if (0 <? word_count_transcript)%nat then
    match true_div (Z.of_nat word_count_summary)
                   (Z.of_nat word_count_transcript) with
    | Returns q => Returns (PyFloat ((1 - q) * 100)%float)
    | Raises e => Raises e
    end
  else Returns (PyInt 0).

(** [format_content]. [timestamp] is what
    [datetime.now().strftime("%B %d, %Y at %I:%M %p")] gives at the
    time of the call. *)
Definition format_content (timestamp : str) (transcript summary : str)
  (include_timestamp : bool) : outcome str :=
  let lines :=
    [repeat 61%N 80; lit "MEETING SUMMARY REPORT"; repeat 61%N 80; lit ""] in
  let lines :=
    if include_timestamp
    then lines ++ [lit "Generated on: " ++ timestamp; lit ""]
    else lines in
  let lines :=
    lines ++ [repeat 45%N 80; lit "EXECUTIVE SUMMARY"; repeat 45%N 80; lit "";
              summary; lit ""] in
  let lines :=
    lines ++ [repeat 45%N 80; lit "FULL TRANSCRIPT"; repeat 45%N 80; lit "";
              transcript; lit ""] in
  let word_count_transcript := length (split transcript) in
  let word_count_summary := length (split summary) in
  match compression_ratio word_count_summary word_count_transcript with
  | Raises e => Raises e
  | Returns ratio =>
      let lines :=
        lines ++ [repeat 45%N 80; lit "STATISTICS"; repeat 45%N 80;
                  lit "Transcript Word Count: "
                  ++ str_of_N (N.of_nat word_count_transcript);
                  lit "Summary Word Count: "
                  ++ str_of_N (N.of_nat word_count_summary);
                  lit "Compression Ratio: " ++ format_1f ratio ++ lit "%";
                  lit ""; repeat 61%N 80] in
      Returns (join [10%N] lines)
  end.

(** [export_to_txt]; the [filename] argument is only logged. *)
Definition export_to_txt (timestamp : str) (transcript summary : str)
  (include_timestamp : bool) : outcome (list N) :=
  let body :=
    match format_content timestamp transcript summary include_timestamp with
    | Raises e => Raises e
    | Returns content => encode_utf8 content
    end in
  match body with
  | Returns file_bytes => Returns file_bytes
  | Raises e =>
      let error_msg := lit "Error creating TXT file: " ++ str_of_error e in
      Raises (Exception_ error_msg)
  end.

End ExportTxt.

Import Summarize ExportPy Utils PyText ExportTxt.

(* ================================================================== *)
(** * Vocabulary of the statements *)
(* ================================================================== *)

(** A text with no character other than whitespace (the empty text
    included). *)
Definition blank (s : str) : bool := forallb isspace s.

(** A word: non-empty and free of whitespace. *)
Definition is_word (w : str) : Prop :=
  w <> [] /\ forallb (fun c => negb (isspace c)) w = true.

(** Not the empty string. *)
Definition nonempty (s : str) : Prop := s <> [].

(** The text ends with a whitespace character. *)
Fixpoint ends_with_space (s : str) : bool :=
  match s with
  | [] => false
  | [c] => isspace c
  | _ :: s' => ends_with_space s'
  end.

(** The words held by the loop's locals, in order. *)
Definition words_of (st : chunker) : list str :=
  concat (map split (chunks st)) ++ concat (map split (current_chunk st)).

(** The state of the loop where [chunk_text] starts it. *)
Definition chunker_start : chunker :=
  {| chunks := []; current_chunk := []; current_length := 0%float |}.

(** The hard-split group size of a budget exists and is positive. *)
Definition positive_size (max_tokens : Z) : bool :=
  match chunk_size_of max_tokens with
  | Ok k => 0 <? k
  | Raise _ => false
  end.

(** [lo; lo + 1; ...], [n] integers. *)
Fixpoint z_from (lo : Z) (n : nat) : list Z :=
  match n with
  | O => []
  | S n' => lo :: z_from (lo + 1) n'
  end.

(** The estimate [len(text.split()) * 1.3 > 1024]. *)
Definition over_budget (text : str) : bool :=
  float_gt_int (times_1_3 (length (split text))) 1024.

(** How the chunks of a result are put together from the sentences, in
    order: a chunk is a run of consecutive whole sentences joined by
    single spaces, or the chunks are the hard-split groups of one
    sentence, at least one group, which together hold the words of that
    sentence. *)
Inductive assembled (max_tokens : Z) : list str -> list str -> Prop :=
| assembled_nil : assembled max_tokens [] []
| assembled_run group rest chunks :
    group <> [] ->
    assembled max_tokens rest chunks ->
    assembled max_tokens (group ++ rest) (join [space] group :: chunks)
| assembled_split sentence groups rest chunks :
    hard_split sentence max_tokens = Ok groups ->
    groups <> [] ->
    concat (map split groups) = split sentence ->
    assembled max_tokens rest chunks ->
    assembled max_tokens (sentence :: rest) (groups ++ chunks).

(** A code point that UTF-8 can carry: below U+110000 and no
    surrogate. *)
Definition scalar (c : char) : bool :=
  (c <? 1114112)%N && negb (is_surrogate c).

(** Nothing but ASCII. *)
Definition ascii_only (s : str) : bool := forallb (fun c => (c <? 128)%N) s.

(** The lines of the report before the summary, between the summary and
    the transcript, and after the transcript. *)
Definition report_head (timestamp : str) (include_timestamp : bool) : list str :=
  [repeat 61%N 80; lit "MEETING SUMMARY REPORT"; repeat 61%N 80; lit ""]
  ++ (if include_timestamp
      then [lit "Generated on: " ++ timestamp; lit ""]
      else [])
  ++ [repeat 45%N 80; lit "EXECUTIVE SUMMARY"; repeat 45%N 80; lit ""].

Definition report_middle : list str :=
  [lit ""; repeat 45%N 80; lit "FULL TRANSCRIPT"; repeat 45%N 80; lit ""].

Definition report_counts (transcript summary : str) : list str :=
  [lit ""; repeat 45%N 80; lit "STATISTICS"; repeat 45%N 80;
   lit "Transcript Word Count: "
   ++ str_of_N (N.of_nat (length (split transcript)));
   lit "Summary Word Count: "
   ++ str_of_N (N.of_nat (length (split summary)))].

(** A text of [n] one-letter words. *)
Definition n_words (n : nat) : str := concat (repeat (lit "w ") n).

(** A backend whose pipeline loads and whose every call raises. *)
Definition broken_run : unit -> list event -> str -> Z -> Z -> result str :=
  fun _ _ _ _ _ => Raise (PipelineError (lit "model unavailable")).

(** A backend that answers every call with the first word of its
    input. *)
Definition first_word_run : unit -> list event -> str -> Z -> Z -> result str :=
  fun _ _ x _ _ => Ok (hd (lit "") (split x)).

(** The events of the merge pass over [summaries] when a pipeline is
    cached: one model call on the joined summaries, made when there are
    two or more of them and they hold more than [max_length] words. *)
Definition merge_events (summaries : list str) (a b : Z) : list event :=
  if (2 <=? length summaries)%nat
     && (a <? Z.of_nat (length (split (join [space] summaries))))
  then [EvModel (join [space] summaries) a b]
  else [].

(** The constructor of the pipeline, where this call would run it,
    raises nothing but errors derived from [Exception]. *)
Definition load_catchable {Handle : Type} (load : list event -> result Handle)
  (w : world Handle) : Prop :=
  forall e, _cached_pipeline w = None -> load (history w) = Raise e ->
            is_exception e = true.

Section Backends.

Context {Handle : Type}.
Variable run : Handle -> list event -> str -> Z -> Z -> result str.

(** Every model call that returns, returns a non-empty summary. *)
Definition productive : Prop :=
  forall p h x a b out, run p h x a b = Ok out -> nonempty out.

(** Every model call raises, and raises an error derived from
    [Exception]. *)
Definition failing : Prop :=
  forall p h x a b,
    exists e, run p h x a b = Raise e /\ is_exception e = true.



(** The model, called on [chunks] one after the other from the history
    [h], answers with [summaries]. *)
Fixpoint answered (p : Handle) (a b : Z) (h : list event)
  (chunks summaries : list str) : Prop :=
  match chunks, summaries with
  | [], [] => True
  | c :: cs, s :: ss =>
      run p h c a b = Ok s /\ answered p a b (h ++ [EvModel c a b]) cs ss
  | _, _ => False
  end.

(** What the chunked path does after the chunker returned [chunks],
    from the history [h1] on: the outcome [r] and the history [h'] it
    ends with. Either the model answers the first [n] chunks and raises
    on the next one, which ends the path; or it answers every chunk and
    the merge pass runs over the summaries. *)
Definition chunked_outcome (a b : Z) (p : Handle) (h1 : list event)
  (chunks : list str) (r : result (str * option str)) (h' : list event)
  : Prop :=
  (exists n c done e,
      nth_error chunks n = Some c
      /\ answered p a b h1 (firstn n chunks) done
      /\ run p (h1 ++ map (fun c => EvModel c a b) (firstn n chunks)) c a b
         = Raise e
      /\ r = Raise e
      /\ h' = h1 ++ map (fun c => EvModel c a b) (firstn (S n) chunks))
  \/ (exists summaries,
         answered p a b h1 chunks summaries
         /\ h' = h1 ++ map (fun c => EvModel c a b) chunks
                   ++ EvMerge summaries :: merge_events summaries a b
         /\ ((exists s, r = Ok (s, None)
                         /\ (productive -> 1 <= a -> nonempty s))
             \/ (exists e,
                    r = Raise e /\ is_exception e = false
                    /\ run p (h1 ++ map (fun c => EvModel c a b) chunks
                                 ++ [EvMerge summaries])
                             (join [space] summaries) a b = Raise e))).

(** What the two paths do once the pipeline [p] is cached in [w1]:
    the outcome [r] and the world [w'] they end in. *)
Definition path_outcome (text : str) (a b : Z) (w1 : world Handle) (p : Handle)
  (r : result (str * option str)) (w' : world Handle) : Prop :=
  _cached_pipeline w' = Some p
  /\ if over_budget text then
       exists chunks,
         chunk_text text 1024 = Ok chunks
         /\ chunks <> []
         /\ chunked_outcome a b p (history w1 ++ [EvChunk text 1024])
              chunks r (history w')
     else
       r = match run p (history w1) text a b with
           | Ok s => Ok (s, None)
           | Raise e => Raise e
           end
       /\ history w' = history w1 ++ [EvModel text a b].

End Backends.

(** A computation that, started with the pipeline [p] cached, ends with
    [p] still cached and never constructs a pipeline. *)
Definition steady {Handle A : Type} (p : Handle) (m : M Handle A) : Prop :=
  forall w, _cached_pipeline w = Some p ->
    _cached_pipeline (snd (m w)) = Some p
    /\ exists evs, history (snd (m w)) = history w ++ evs /\ ~ In EvLoad evs.

(* ================================================================== *)
(** * Facts about the runtime *)
(* ================================================================== *)

Section Strings.

Lemma space_isspace : isspace space = true.
Proof. reflexivity. Qed.

Lemma terminator_not_space c : is_terminator c = true -> isspace c = false.
Proof.
  unfold is_terminator. intros H.
  apply orb_prop in H as [H | H]; [apply orb_prop in H as [H | H] |];
    apply N.eqb_eq in H; subst c; reflexivity.
Qed.

Lemma split_go_app_space cur a c b :
  isspace c = true ->
  split_go cur (a ++ c :: b) = split_go cur a ++ split b.
Proof.
  intros Hc. revert cur. induction a as [| x a IH]; intros cur; simpl.
  - now rewrite Hc.
  - destruct (isspace x).
    + now rewrite IH, app_assoc.
    + apply IH.
Qed.

Lemma split_app_space a c b :
  isspace c = true -> split (a ++ c :: b) = split a ++ split b.
Proof. apply split_go_app_space. Qed.

Lemma split_cons_space c s : isspace c = true -> split (c :: s) = split s.
Proof. intros Hc. unfold split. simpl. now rewrite Hc. Qed.

Lemma split_join l : split (join [space] l) = concat (map split l).
Proof.
  induction l as [| x [| y rest] IH].
  - reflexivity.
  - simpl. now rewrite app_nil_r.
  - change (join [space] (x :: y :: rest))
      with (x ++ space :: join [space] (y :: rest)).
    rewrite split_app_space by reflexivity.
    now rewrite IH.
Qed.

Lemma split_go_word cur w :
  forallb (fun c => negb (isspace c)) w = true ->
  split_go cur w = flush (rev w ++ cur).
Proof.
  revert cur. induction w as [| c w IH]; intros cur H; simpl in *.
  - reflexivity.
  - apply andb_prop in H as [Hc Hw].
    apply negb_true_iff in Hc. rewrite Hc, IH by assumption.
    now rewrite <- app_assoc.
Qed.

Lemma split_word w : is_word w -> split w = [w].
Proof.
  intros [Hne Hw]. unfold split. rewrite split_go_word by assumption.
  rewrite app_nil_r. destruct (rev w) eqn:E.
  - apply (f_equal (@rev _)) in E. rewrite rev_involutive in E. now subst.
  - change (flush (c :: l)) with [rev (c :: l)].
    now rewrite <- E, rev_involutive.
Qed.

Lemma flush_words cur :
  forallb (fun c => negb (isspace c)) cur = true -> Forall is_word (flush cur).
Proof.
  intros H. destruct cur as [| c cur]; simpl; [constructor |].
  constructor; [| constructor]. split.
  - intros E. apply (f_equal (@length _)) in E.
    rewrite length_app in E. simpl in E. lia.
  - change (rev cur ++ [c]) with (rev (c :: cur)).
    rewrite forallb_forall in *. intros x Hx. apply H. now apply in_rev.
Qed.

Lemma split_go_words cur s :
  forallb (fun c => negb (isspace c)) cur = true ->
  Forall is_word (split_go cur s).
Proof.
  revert cur. induction s as [| c s IH]; intros cur H; simpl.
  - now apply flush_words.
  - destruct (isspace c) eqn:Hc.
    + apply Forall_app. split; [now apply flush_words | now apply IH].
    + apply IH. simpl. now rewrite Hc.
Qed.

Lemma split_words s : Forall is_word (split s).
Proof. now apply split_go_words. Qed.

Lemma split_join_words ws : Forall is_word ws -> split (join [space] ws) = ws.
Proof.
  intros H. rewrite split_join. induction H as [| w ws Hw _ IH]; simpl.
  - reflexivity.
  - now rewrite split_word, IH.
Qed.

Lemma split_blank s : blank s = true -> split s = [].
Proof.
  induction s as [| c s IH]; simpl; intros H; [reflexivity |].
  apply andb_prop in H as [Hc Hs]. rewrite split_cons_space by assumption.
  now apply IH.
Qed.

Lemma lstrip_nil s : lstrip s = [] <-> blank s = true.
Proof.
  induction s as [| c s IH]; simpl; [tauto |].
  destruct (isspace c); simpl; [assumption |].
  split; discriminate.
Qed.

Lemma lstrip_blank_suffix s : blank s = false -> blank (lstrip s) = false.
Proof.
  induction s as [| c s IH]; simpl; intros H; [discriminate |].
  destruct (isspace c) eqn:Hc; simpl in *.
  - now apply IH.
  - now rewrite Hc.
Qed.

Lemma blank_rev s : blank (rev s) = blank s.
Proof.
  unfold blank. induction s as [| c s IH]; simpl; [reflexivity |].
  rewrite forallb_app, IH. simpl.
  now rewrite andb_true_r, andb_comm.
Qed.

(** [text.strip()] is falsy exactly on the blank texts. *)
Lemma truthy_strip s : truthy (strip s) = negb (blank s).
Proof.
  unfold strip, rstrip. destruct (blank s) eqn:E; simpl.
  - apply lstrip_nil in E. now rewrite E.
  - apply lstrip_blank_suffix in E. rewrite <- blank_rev in E.
    apply lstrip_blank_suffix in E. rewrite <- blank_rev in E.
    destruct (rev (lstrip (rev (lstrip s)))); [discriminate | reflexivity].
Qed.

(** The test [not text or not text.strip()]. *)
Lemma empty_test s :
  negb (truthy s) || negb (truthy (strip s)) = blank s.
Proof.
  rewrite truthy_strip, negb_involutive.
  destruct s; simpl; [reflexivity |]. reflexivity.
Qed.

End Strings.

(** ** The sentence split *)

Section Sentences.

Lemma re_split_go_not_nil b cur s : re_split_go b cur s <> [].
Proof.
  revert b cur. induction s as [| c s IH]; intros b cur; simpl.
  - discriminate.
  - destruct (isspace c), b; try apply IH.
    destruct (after_terminator cur); [discriminate | apply IH].
Qed.

(** Splitting into sentences neither loses nor invents a word. *)
Lemma re_split_go_words s :
  (forall cur,
      concat (map split (re_split_go false cur s)) = split (rev cur ++ s))
  /\ concat (map split (re_split_go true [] s)) = split s.
Proof.
  induction s as [| c s [IHf IHt]]; split; intros; simpl.
  - now rewrite !app_nil_r.
  - reflexivity.
  - destruct (isspace c) eqn:Hc.
    + destruct (after_terminator cur).
      * simpl. rewrite IHt. symmetry. now apply split_app_space.
      * rewrite IHf. simpl. now rewrite <- app_assoc.
    + rewrite IHf. simpl. now rewrite <- app_assoc.
  - destruct (isspace c) eqn:Hc.
    + rewrite IHt. symmetry. now apply split_cons_space.
    + now rewrite IHf.
Qed.

Lemma re_split_words text :
  concat (map split (re_split_sentences text)) = split text.
Proof. apply (proj1 (re_split_go_words text) []). Qed.

Lemma after_terminator_nonempty cur :
  after_terminator cur = true -> nonempty (rev cur).
Proof.
  destruct cur as [| p cur]; [discriminate |]. intros _ E.
  apply (f_equal (@length _)) in E. simpl in E.
  rewrite length_app in E. simpl in E. lia.
Qed.

Lemma removelast_cons {A} (x : A) l :
  l <> [] -> removelast (x :: l) = x :: removelast l.
Proof. destruct l; [contradiction | reflexivity]. Qed.

Lemma last_cons {A} (x : A) l d : l <> [] -> last (x :: l) d = last l d.
Proof. destruct l; [contradiction | reflexivity]. Qed.

(** Only the last sentence can be the empty string. *)
Lemma re_split_go_init_nonempty b cur s :
  Forall nonempty (removelast (re_split_go b cur s)).
Proof.
  revert b cur. induction s as [| c s IH]; intros b cur; simpl.
  - constructor.
  - destruct (isspace c), b; try apply IH.
    destruct (after_terminator cur) eqn:Ha; [| apply IH].
    rewrite removelast_cons by apply re_split_go_not_nil.
    constructor; [now apply after_terminator_nonempty | apply IH].
Qed.

Lemma ends_with_space_cons c s :
  s <> [] -> ends_with_space (c :: s) = ends_with_space s.
Proof. destruct s; [contradiction | reflexivity]. Qed.

(** The last sentence is empty only for the empty text and for a text
    that ends in whitespace. *)
Lemma re_split_go_last_empty b cur s :
  last (re_split_go b cur s) [] = [] ->
  (s = [] /\ cur = []) \/ ends_with_space s = true.
Proof.
  revert b cur. induction s as [| c s IH]; intros b cur; simpl (re_split_go _ _ _).
  - simpl. intros E. left. split; [reflexivity |].
    apply (f_equal (@rev _)) in E. now rewrite rev_involutive in E.
  - assert (Hstep : forall b' cur',
               (cur' = [] -> isspace c = true) ->
               last (re_split_go b' cur' s) [] = [] ->
               ends_with_space (c :: s) = true).
    { intros b' cur' Hc E. destruct (IH _ _ E) as [[-> ->] | Hs].
      - now apply Hc.
      - destruct s; [discriminate |]. exact Hs. }
    intros E. right. destruct (isspace c) eqn:Hc.
    + destruct b.
      * now apply (Hstep true cur).
      * destruct (after_terminator cur).
        -- rewrite last_cons in E by apply re_split_go_not_nil.
           now apply (Hstep true []).
        -- apply (Hstep false (c :: cur)); [discriminate | assumption].
    + apply (Hstep false (c :: cur)); [discriminate | assumption].
Qed.

Lemma re_split_last_empty text :
  last (re_split_sentences text) [] = [] ->
  text = [] \/ ends_with_space text = true.
Proof.
  intros E. destruct (re_split_go_last_empty _ _ _ E) as [[-> _] | H]; auto.
Qed.


(** A blank text is a single sentence. *)
Lemma re_split_go_blank cur s :
  after_terminator cur = false -> blank s = true ->
  re_split_go false cur s = [rev cur ++ s].
Proof.
  revert cur. induction s as [| c s IH]; intros cur Ha Hs; simpl in *.
  - now rewrite app_nil_r.
  - apply andb_prop in Hs as [Hc Hs]. rewrite Hc, Ha, IH; trivial.
    + simpl. now rewrite <- app_assoc.
    + simpl. destruct (is_terminator c) eqn:Ht; [| reflexivity].
      apply terminator_not_space in Ht. congruence.
Qed.

Lemma re_split_blank text :
  blank text = true -> re_split_sentences text = [text].
Proof. intros H. now apply (re_split_go_blank [] text). Qed.

End Sentences.

(** ** Slices, ranges and joins *)

Section Slices.

Context {A : Type}.

Lemma firstn_plus (a b : nat) (l : list A) :
  firstn (a + b) l = firstn a l ++ firstn b (skipn a l).
Proof.
  revert l. induction a as [| a IH]; intros l; simpl.
  - reflexivity.
  - destruct l as [| x l]; simpl.
    + now rewrite firstn_nil.
    + now rewrite IH.
Qed.

(** [l[a:a+k]] for natural [a] and [k]. *)
Lemma slice_nat (l : list A) (a k : nat) :
  slice l (Z.of_nat a) (Z.of_nat a + Z.of_nat k) = firstn k (skipn a l).
Proof.
  unfold slice, clamp.
  destruct (Z.ltb_spec (Z.of_nat a) 0); [lia |].
  destruct (Z.ltb_spec (Z.of_nat a + Z.of_nat k) 0); [lia |].
  destruct (Nat.le_gt_cases a (length l)) as [Hle | Hgt].
  - rewrite (Z.min_l (Z.of_nat a)) by lia. rewrite Nat2Z.id.
    destruct (Nat.le_gt_cases (a + k) (length l)) as [Hle' | Hgt'].
    + rewrite Z.min_l by lia. f_equal. lia.
    + rewrite Z.min_r by lia.
      rewrite !firstn_all2; trivial; rewrite length_skipn; lia.
  - rewrite !Z.min_r by lia. rewrite Z.sub_diag. simpl.
    rewrite skipn_all2 by lia. now rewrite firstn_nil.
Qed.

(** [l[:n]] for [0 <= n]. *)
Lemma slice_prefix (l : list A) (n : Z) :
  0 <= n -> slice l 0 n = firstn (Z.to_nat n) l.
Proof.
  intros Hn.
  replace n with (Z.of_nat 0 + Z.of_nat (Z.to_nat n)) at 1 by lia.
  change 0 with (Z.of_nat 0) at 1. now rewrite slice_nat.
Qed.

(** Consecutive groups of [k] elements cover a prefix. *)
Lemma concat_groups (l : list A) (k c : nat) :
  concat (map (fun j => firstn k (skipn (j * k) l)) (seq 0 c))
  = firstn (c * k) l.
Proof.
  induction c as [| c IH].
  - reflexivity.
  - rewrite seq_S, map_app, concat_app, IH. simpl.
    rewrite app_nil_r, <- firstn_plus. f_equal. lia.
Qed.

End Slices.

Section Joins.

Lemma join_cons_nonempty sep x rest : nonempty x -> nonempty (join sep (x :: rest)).
Proof.
  intros Hx. destruct rest; simpl; [assumption |].
  destruct x; [contradiction | discriminate].
Qed.

Lemma join_nonempty sep l : l <> [] -> Forall nonempty l -> nonempty (join sep l).
Proof.
  intros Hl H. destruct H; [contradiction |]. now apply join_cons_nonempty.
Qed.

(** Two or more strings joined with a space are never the empty string. *)
Lemma join_two_nonempty x y rest : nonempty (join [space] (x :: y :: rest)).
Proof.
  change (join [space] (x :: y :: rest))
    with (x ++ space :: join [space] (y :: rest)).
  intros E. apply (f_equal (@length _)) in E.
  rewrite length_app in E. simpl in E. lia.
Qed.

Lemma word_nonempty w : is_word w -> nonempty w.
Proof. now intros [H _]. Qed.

Lemma words_nonempty ws : Forall is_word ws -> Forall nonempty ws.
Proof. apply Forall_impl, word_nonempty. Qed.

Lemma Forall_firstn {A} (P : A -> Prop) n l : Forall P l -> Forall P (firstn n l).
Proof.
  intros H. revert n. induction H; intros [| n]; simpl; constructor; auto.
Qed.

Lemma Forall_skipn {A} (P : A -> Prop) n l : Forall P l -> Forall P (skipn n l).
Proof.
  intros H. revert n. induction H; intros [| n]; simpl; auto.
Qed.

Lemma Forall_removelast {A} (P : A -> Prop) l :
  Forall P l -> Forall P (removelast l).
Proof.
  induction 1 as [| x l Hx Hl IH]; simpl; [constructor |].
  destruct l; [constructor | now constructor].
Qed.

End Joins.

(** ** The chunker *)

Section Chunker.

Variable max_tokens : Z.
Variable chunk_size : Z.
Hypothesis Hsize : chunk_size_of max_tokens = Ok chunk_size.
Hypothesis Hpos : 0 < chunk_size.

Lemma range_groups (n : nat) :
  exists c : nat,
    range 0 (Z.of_nat n) chunk_size
    = Ok (map (fun j => Z.of_nat (j * Z.to_nat chunk_size)) (seq 0 c))
    /\ (n <= c * Z.to_nat chunk_size)%nat
    /\ (forall j, (j < c)%nat -> (j * Z.to_nat chunk_size < n)%nat).
Proof.
  unfold range.
  destruct (Z.eqb_spec chunk_size 0); [lia |].
  destruct (Z.ltb_spec 0 chunk_size); [| lia].
  set (q := (Z.of_nat n - 0 + chunk_size - 1) / chunk_size).
  assert (Hq : chunk_size * q <= Z.of_nat n + chunk_size - 1
               /\ Z.of_nat n + chunk_size - 1 < chunk_size * q + chunk_size).
  { subst q. replace (Z.of_nat n - 0 + chunk_size - 1)
      with (Z.of_nat n + chunk_size - 1) by lia.
    pose proof (Z.mul_div_le (Z.of_nat n + chunk_size - 1) chunk_size Hpos).
    pose proof (Z.mul_succ_div_gt (Z.of_nat n + chunk_size - 1) chunk_size Hpos).
    lia. }
  exists (Z.to_nat q). split; [| split].
  - f_equal. apply map_ext. intros j. lia.
  - assert (0 <= q) by nia. nia.
  - intros j Hj. assert (0 <= q) by nia. nia.
Qed.

(** The hard split of an oversized sentence keeps its words and yields
    no empty chunk. *)
Lemma hard_split_ok sentence :
  exists groups,
    hard_split sentence max_tokens = Ok groups
    /\ concat (map split groups) = split sentence
    /\ Forall nonempty groups.
Proof.
  unfold hard_split. rewrite Hsize. simpl.
  destruct (range_groups (length (split sentence))) as (c & -> & Hcover & Hin).
  simpl. eexists. split; [reflexivity |].
  set (k := Z.to_nat chunk_size) in *.
  assert (Hk : chunk_size = Z.of_nat k) by lia.
  assert (Hgroup : forall j,
             slice (split sentence) (Z.of_nat (j * k)) (Z.of_nat (j * k) + chunk_size)
             = firstn k (skipn (j * k) (split sentence))).
  { intros j. rewrite Hk. apply slice_nat. }
  rewrite !map_map. split.
  - rewrite (map_ext _ (fun j => firstn k (skipn (j * k) (split sentence)))).
    + rewrite concat_groups. now apply firstn_all2.
    + intros j. rewrite Hgroup. apply split_join_words.
      apply Forall_firstn, Forall_skipn, split_words.
  - apply Forall_forall. intros g Hg. apply in_map_iff in Hg as (j & <- & Hj).
    apply in_seq in Hj. rewrite Hgroup.
    specialize (Hin j ltac:(lia)).
    apply join_nonempty.
    + destruct (skipn (j * k) (split sentence)) eqn:E.
      * apply (f_equal (@length _)) in E. rewrite length_skipn in E.
        simpl in E. lia.
      * destruct k; [lia | discriminate].
    + apply words_nonempty, Forall_firstn, Forall_skipn, split_words.
Qed.

Lemma concat_split_snoc l x :
  concat (map split (l ++ [x])) = concat (map split l) ++ split x.
Proof. rewrite map_app, concat_app. simpl. now rewrite app_nil_r. Qed.

(** One iteration never raises, moves the words of the sentence into
    the locals, and closes only non-empty chunks. *)
Lemma chunk_step_ok st sentence :
  exists st',
    chunk_step max_tokens st sentence = Ok st'
    /\ words_of st' = words_of st ++ split sentence
    /\ (Forall nonempty (chunks st) -> Forall nonempty (current_chunk st) ->
        Forall nonempty (chunks st')
        /\ (nonempty sentence -> Forall nonempty (current_chunk st'))).
Proof.
  unfold chunk_step, words_of.
  destruct (float_gt_int _ _).
  - destruct (current_chunk st) as [| s0 cur] eqn:Hcur; simpl truthy; cbv iota.
    + destruct (hard_split_ok sentence) as (groups & -> & Hw & Hne).
      simpl. eexists. split; [reflexivity |]. simpl.
      rewrite !app_nil_r, map_app, concat_app, Hw. split; [reflexivity |].
      intros Hc _. split; [now apply Forall_app | constructor].
    + eexists. split; [reflexivity |]. cbn [chunks current_chunk].
      rewrite concat_split_snoc, split_join. simpl (concat (map split [_])).
      rewrite app_nil_r. split; [reflexivity |].
      intros Hc Hcc. split.
      * apply Forall_app. split; [assumption |]. constructor; [| constructor].
        apply join_nonempty; [discriminate | assumption].
      * intros Hs. now constructor.
  - eexists. split; [reflexivity |]. cbn [chunks current_chunk].
    rewrite concat_split_snoc, app_assoc. split; [reflexivity |].
    intros Hc Hcc. split; [assumption |].
    intros Hs. apply Forall_app. split; [assumption | now constructor].
Qed.

Lemma chunk_loop_ok sentences : forall st,
  exists st',
    chunk_loop max_tokens st sentences = Ok st'
    /\ words_of st' = words_of st ++ concat (map split sentences)
    /\ (Forall nonempty (chunks st) -> Forall nonempty (current_chunk st) ->
        Forall nonempty (removelast sentences) ->
        Forall nonempty (chunks st')
        /\ (Forall nonempty sentences -> Forall nonempty (current_chunk st'))).
Proof.
  induction sentences as [| s rest IH]; intros st; simpl chunk_loop.
  - exists st. simpl. rewrite app_nil_r. auto.
  - destruct (chunk_step_ok st s) as (st1 & -> & Hw1 & Hn1).
    destruct (IH st1) as (st' & Hloop & Hw & Hn).
    exists st'. split; [exact Hloop |]. split.
    + rewrite Hw, Hw1. simpl. now rewrite app_assoc.
    + intros Hc Hcc Hinit. destruct (Hn1 Hc Hcc) as [Hc1 Hcc1].
      destruct rest as [| s' rest'].
      * simpl in Hloop. injection Hloop as <-. split; [assumption |].
        intros Hall. apply Hcc1. now inversion Hall.
      * rewrite removelast_cons in Hinit by discriminate.
        inversion Hinit; subst.
        destruct Hn as [Hc' Hcc']; auto.
        split; [assumption |]. intros Hall. apply Hcc'. now inversion Hall.
Qed.

End Chunker.

Section ChunkText.

Lemma finish_words st : concat (map split (finish st)) = words_of st.
Proof.
  unfold finish, words_of. destruct (current_chunk st) as [| s cur]; simpl truthy; cbv iota.
  - simpl. now rewrite app_nil_r.
  - now rewrite concat_split_snoc, split_join.
Qed.

Lemma finish_nonempty st :
  Forall nonempty (chunks st) ->
  Forall nonempty (removelast (finish st))
  /\ (Forall nonempty (current_chunk st) -> Forall nonempty (finish st)).
Proof.
  intros Hc. unfold finish.
  destruct (current_chunk st) as [| s cur]; simpl truthy; cbv iota.
  - split; [now apply Forall_removelast | trivial].
  - split.
    + now rewrite removelast_last.
    + intros Hcc. apply Forall_app. split; [assumption |].
      constructor; [| constructor].
      apply join_nonempty; [discriminate | assumption].
Qed.

Lemma last_nonempty_all (l : list str) :
  Forall nonempty (removelast l) -> nonempty (last l []) -> Forall nonempty l.
Proof.
  induction l as [| x l IH]; [constructor |].
  destruct l as [| y l].
  - simpl. intros _ Hx. now constructor.
  - rewrite removelast_cons, last_cons by discriminate.
    intros H Hl. inversion H; subst. constructor; auto.
Qed.

(** With a positive hard-split group size the loop over the sentences
    runs to its end, holds every word of the text in order, and has
    closed only non-empty chunks. *)
Lemma chunk_text_run text max_tokens chunk_size :
  chunk_size_of max_tokens = Ok chunk_size -> 0 < chunk_size ->
  exists st,
    chunk_loop max_tokens chunker_start (re_split_sentences text) = Ok st
    /\ words_of st = split text
    /\ Forall nonempty (chunks st)
    /\ (Forall nonempty (re_split_sentences text) ->
        Forall nonempty (current_chunk st)).
Proof.
  intros Hsize Hpos.
  destruct (chunk_loop_ok max_tokens chunk_size Hsize Hpos
              (re_split_sentences text) chunker_start)
    as (st & Hloop & Hw & Hn).
  exists st. split; [exact Hloop |]. split.
  - rewrite Hw. apply re_split_words.
  - apply Hn; try constructor. apply re_split_go_init_nonempty.
Qed.

Lemma chunk_size_1024 : chunk_size_of 1024 = Ok 787.
Proof. vm_compute. reflexivity. Qed.

Lemma in_z_from n : forall lo m,
  lo <= m < lo + Z.of_nat n -> In m (z_from lo n).
Proof.
  induction n as [| n IH]; intros lo m H; [lia |].
  simpl. destruct (Z.eq_dec lo m); [now left | right].
  apply IH. lia.
Qed.

(** Every budget from 2 to 65536 tokens has a positive group size. *)
Lemma chunk_size_positive max_tokens :
  2 <= max_tokens <= 65536 ->
  exists k, chunk_size_of max_tokens = Ok k /\ 0 < k.
Proof.
  intros H.
  assert (Hall : forallb positive_size (z_from 2 (Z.to_nat 65535)) = true)
    by (vm_compute; reflexivity).
  rewrite forallb_forall in Hall.
  assert (Hin : In max_tokens (z_from 2 (Z.to_nat 65535))).
  { apply in_z_from. rewrite Z2Nat.id; lia. }
  specialize (Hall max_tokens Hin).
  unfold positive_size in Hall.
  destruct (chunk_size_of max_tokens) as [k |]; [| discriminate].
  exists k. split; [reflexivity |]. now apply Z.ltb_lt.
Qed.

Lemma zero_tokens_fit max_tokens :
  0 <= max_tokens ->
  float_gt_int (0 + times_1_3 0)%float max_tokens = false.
Proof.
  intros H.
  replace (0 + times_1_3 0)%float with 0%float by (vm_compute; reflexivity).
  unfold float_gt_int.
  replace (Prim2SF 0) with (S754_zero false) by (vm_compute; reflexivity).
  apply Z.ltb_ge, H.
Qed.

End ChunkText.

(* ================================================================== *)
(** * The chunker: word preservation, size bound, empty input *)
(* ================================================================== *)

(** The one empty chunk that is intended: [chunk_text("")] is [[""]], a
    list whose only chunk is the empty string, so no statement of the
    form below holds for every text. *)
Lemma chunk_text_may_return_empty_chunk :
  ~ (forall text max_tokens, 1 <= max_tokens ->
       exists chunks,
         chunk_text text max_tokens = Ok chunks
         /\ concat (map split chunks) = split text
         /\ Forall nonempty chunks).
Proof.
  intros H. destruct (H (lit "") 1024 ltac:(lia)) as (chunks & E & _ & Hne).
  vm_compute in E. injection E as <-.
  inversion Hne as [| ? ? Hx _]. now apply Hx.
Qed.

(** An empty last chunk after a hard split: [chunk_text("a b. ", 2)]. *)
Example chunk_text_trailing_empty :
  chunk_text (lit "a b. ") 2 = Ok [lit "a"; lit "b."; lit ""].
Proof. vm_compute. reflexivity. Qed.

(** The text of the repository's test of long texts, 1000 sentences
    with a budget of 500 tokens: it ends with whitespace, and all of its
    chunks are non-empty. *)
Example chunk_text_long_text :
  match chunk_text (concat (repeat (lit "This is a sentence. ") 1000)) 500 with
  | Ok chunks =>
      (1 <? length chunks)%nat && forallb (fun c => truthy c) chunks
  | Raise _ => false
  end = true.
Proof. vm_compute. reflexivity. Qed.

(** C1, at its failing inputs. With [max_tokens = 1] the hard-split
    group size [int(1 / 1.3)] is 0 and [range(0, len(words), 0)] raises
    a [ValueError]: [chunk_text("a", 1)] returns no chunks at all. With
    the default budget of 1024 tokens, a sentence of 800 words followed
    by a space is cut into chunks of 787 and 13 words, and a third chunk
    follows that is the empty string; [summarize] then calls the model
    on that empty chunk. *)
Theorem chunk_text_defects :
  chunk_size_of 1 = Ok 0
  /\ chunk_text (lit "a") 1
     = Raise (ValueError (lit "range() arg 3 must not be zero"))
  /\ chunk_text (n_words 799 ++ lit "w. ") 1024
     = Ok [join [space] (repeat (lit "w") 787);
           join [space] (repeat (lit "w") 12 ++ [lit "w."]);
           lit ""]
  /\ In (EvModel (lit "") 150 50)
       (history (snd (summarize (fun _ => Ok tt) first_word_run
                        (n_words 799 ++ lit "w. ") 150 50
                        {| _cached_pipeline := None; history := [] |}))).
Proof.
  split; [vm_compute; reflexivity |].
  split; [vm_compute; reflexivity |].
  split; [vm_compute; reflexivity |].
  vm_compute. do 4 right. left. reflexivity.
Qed.

(** What does hold. For every text and every [max_tokens] whose
    hard-split group size [int(max_tokens / 1.3)] is at least 1,
    [chunk_text] returns chunks whose whitespace-split words,
    concatenated, are exactly the words of the input in their order;
    every chunk but the last is non-empty, and so is the last when the
    text is not empty and does not end with whitespace. *)
Theorem chunk_text_preserves_words text max_tokens chunk_size :
  chunk_size_of max_tokens = Ok chunk_size -> 0 < chunk_size ->
  exists chunks,
    chunk_text text max_tokens = Ok chunks
    /\ concat (map split chunks) = split text
    /\ Forall nonempty (removelast chunks)
    /\ (text <> [] -> ends_with_space text = false -> Forall nonempty chunks).
Proof.
  intros Hsize Hpos.
  destruct (chunk_text_run text max_tokens chunk_size Hsize Hpos)
    as (st & Hloop & Hw & Hc & Hcc).
  exists (finish st). unfold chunk_text. fold chunker_start. rewrite Hloop.
  destruct (finish_nonempty st Hc) as [Hinit Hall].
  split; [reflexivity |]. split; [| split].
  - now rewrite finish_words.
  - exact Hinit.
  - intros Hne Hend. apply Hall, Hcc.
    apply last_nonempty_all; [apply re_split_go_init_nonempty |].
    intros E. apply re_split_last_empty in E as [E | E]; congruence.
Qed.

Lemma chunk_text_preserves_words_witness :
  exists chunks,
    chunk_text (lit "One two three four five six seven. Eight nine!") 4
    = Ok chunks
    /\ concat (map split chunks)
       = split (lit "One two three four five six seven. Eight nine!")
    /\ Forall nonempty chunks.
Proof.
  destruct (chunk_text_preserves_words
              (lit "One two three four five six seven. Eight nine!") 4 3)
    as (chunks & E & Hw & _ & Hne).
  - vm_compute. reflexivity.
  - lia.
  - exists chunks. repeat split; trivial.
    apply Hne; [discriminate | reflexivity].
Defined.

(** What that call returns: the first sentence is cut into groups of
    three words, the second is a chunk of its own. *)
Example chunk_text_hard_split :
  chunk_text (lit "One two three four five six seven. Eight nine!") 4
  = Ok [lit "One two three"; lit "four five six"; lit "seven.";
        lit "Eight nine!"].
Proof. vm_compute. reflexivity. Qed.

(** The single-chunk shortcut of the specification. *)
Example chunk_text_short_sentence :
  chunk_text (lit "short sentence.") 1024 = Ok [lit "short sentence."].
Proof. vm_compute. reflexivity. Qed.

(** C2, at a failing input. With [max_tokens = 3], the sentence
    ["b c d e."] (4 words, 5.2 tokens) overflows the chunk that holds
    ["a."]; that chunk is closed and the oversized sentence starts the
    next one whole, so it is returned as a chunk above the budget. The
    hard split, had it run, would have cut it into groups of
    [int(3 / 1.3) = 2] words. *)
Theorem chunk_text_oversized_chunk :
  chunk_text (lit "a. b c d e.") 3 = Ok [lit "a."; lit "b c d e."]
  /\ float_gt_int (times_1_3 (length (split (lit "b c d e.")))) 3 = true
  /\ hard_split (lit "b c d e.") 3 = Ok [lit "b c"; lit "d e."].
Proof. repeat split; vm_compute; reflexivity. Qed.

(** The same with the default budget: a short sentence followed by a
    sentence of 800 words is returned as two chunks, the second of 1040
    estimated tokens. *)
Example chunk_text_oversized_chunk_1024 :
  chunk_text (lit "Hi. " ++ n_words 800) 1024 = Ok [lit "Hi."; n_words 800]
  /\ length (split (n_words 800)) = 800%nat
  /\ over_budget (n_words 800) = true.
Proof. repeat split; vm_compute; reflexivity. Qed.

(** C10. [chunk_text("")] is [[""]], a list with one empty string, and
    a whitespace-only text comes back unchanged as the only chunk (for
    the default budget, and for every [max_tokens >= 0]). *)
Theorem chunk_text_blank :
  chunk_text (lit "") 1024 = Ok [lit ""]
  /\ forall text max_tokens,
       blank text = true -> 0 <= max_tokens ->
       chunk_text text max_tokens = Ok [text].
Proof.
  assert (E : forall text max_tokens,
             blank text = true -> 0 <= max_tokens ->
             chunk_text text max_tokens = Ok [text]).
  { intros text max_tokens Hb Hm.
    unfold chunk_text. rewrite re_split_blank by assumption.
    simpl. unfold chunk_step. simpl current_length.
    rewrite split_blank by assumption. simpl length.
    now rewrite zero_tokens_fit. }
  split; [| exact E]. apply (E (lit "")); [reflexivity | lia].
Qed.

Lemma chunk_text_blank_witness :
  chunk_text (lit "   ") 1024 = Ok [lit "   "].
Proof.
  apply (proj2 chunk_text_blank (lit "   ") 1024); [reflexivity | lia].
Defined.

(* ================================================================== *)
(** * The orchestrator and the merge pass *)
(* ================================================================== *)

Section Orchestrator.

Context {Handle : Type}.
Variable load : list event -> result Handle.
Variable run : Handle -> list event -> str -> Z -> Z -> result str.

Implicit Types (w : world Handle) (p : Handle).

Lemma ensure_pipeline_cases w :
  (exists p, _cached_pipeline w = Some p
             /\ ensure_pipeline load w = (Ok tt, w))
  \/ (exists p, _cached_pipeline w = None
                /\ ensure_pipeline load w
                   = (Ok tt, {| _cached_pipeline := Some p;
                                history := history w ++ [EvLoad] |}))
  \/ (exists e, _cached_pipeline w = None
                /\ ensure_pipeline load w
                   = (Raise e, {| _cached_pipeline := None;
                                  history := history w ++ [EvLoad] |})).
Proof.
  unfold ensure_pipeline. destruct (_cached_pipeline w) as [p |] eqn:Hc.
  - left. now exists p.
  - right. destruct (load (history w)) as [p | e].
    + left. now exists p.
    + right. now exists e.
Qed.

Lemma call_pipeline_cached w p x a b :
  _cached_pipeline w = Some p ->
  call_pipeline run x a b w
  = (run p (history w) x a b,
     {| _cached_pipeline := Some p;
        history := history w ++ [EvModel x a b] |}).
Proof. intros Hc. unfold call_pipeline. now rewrite Hc. Qed.

(** The loop over the chunks calls the model on the chunks in order,
    each call seeing the calls made before it, and stops at the first
    call that raises. *)
Lemma summarize_chunks_spec p a b chunks : forall w,
  _cached_pipeline w = Some p ->
  exists r w',
    summarize_chunks run chunks a b w = (r, w')
    /\ _cached_pipeline w' = Some p
    /\ match r with
       | Ok summaries =>
           answered run p a b (history w) chunks summaries
           /\ history w' = history w ++ map (fun c => EvModel c a b) chunks
       | Raise e =>
           exists n c done,
             nth_error chunks n = Some c
             /\ answered run p a b (history w) (firstn n chunks) done
             /\ run p (history w
                       ++ map (fun c => EvModel c a b) (firstn n chunks))
                    c a b = Raise e
             /\ history w'
                = history w
                  ++ map (fun c => EvModel c a b) (firstn (S n) chunks)
       end.
Proof.
  induction chunks as [| c rest IH]; intros w Hc.
  - exists (Ok []), w. simpl. rewrite app_nil_r. auto.
  - simpl summarize_chunks. unfold mbind at 1.
    rewrite (call_pipeline_cached w p) by assumption.
    destruct (run p (history w) c a b) as [s | e] eqn:Hrun.
    + set (w1 := {| _cached_pipeline := Some p;
                    history := history w ++ [EvModel c a b] |}).
      destruct (IH w1 eq_refl) as (r & w' & Hr & Hc' & Hres).
      unfold mbind. rewrite Hr. destruct r as [summaries | e].
      * exists (Ok (s :: summaries)), w'. destruct Hres as [Hans Hh].
        repeat split; trivial.
        rewrite Hh. subst w1. simpl. now rewrite <- app_assoc.
      * exists (Raise e), w'.
        destruct Hres as (n & c' & done & Hnth & Hans & Hraise & Hh).
        repeat split; trivial.
        exists (S n), c', (s :: done). subst w1. simpl in *.
        rewrite <- app_assoc in Hraise, Hh. repeat split; trivial.
    + eexists (Raise e), _. split; [reflexivity |]. simpl.
      split; [reflexivity |]. exists 0%nat, c, [].
      simpl. rewrite app_nil_r. auto.
Qed.

Lemma answered_length p a b chunks : forall h summaries,
  answered run p a b h chunks summaries -> length summaries = length chunks.
Proof.
  induction chunks as [| c cs IH]; intros h [| s ss] H; simpl in *;
    try contradiction; trivial.
  destruct H as [_ H]. f_equal. eapply IH, H.
Qed.

Lemma answered_nonempty p a b chunks : forall h summaries,
  productive run -> answered run p a b h chunks summaries ->
  Forall nonempty summaries.
Proof.
  intros h summaries Hp. revert h summaries.
  induction chunks as [| c cs IH]; intros h [| s ss] H; simpl in *;
    try contradiction; constructor.
  - destruct H as [H _]. eapply Hp, H.
  - destruct H as [_ H]. eapply IH, H.
Qed.

(** The truncation the merge pass falls back to is non-empty when the
    words outnumber a positive [max_length]. *)
Lemma truncation_nonempty combined max_length :
  1 <= max_length ->
  (Z.of_nat (length (split combined)) <=? max_length) = false ->
  nonempty (join [space] (slice (split combined) 0 max_length)).
Proof.
  intros Hm Hlen. apply Z.leb_gt in Hlen.
  rewrite slice_prefix by lia. apply join_nonempty.
  - destruct (split combined); [simpl in Hlen; lia |].
    destruct (Z.to_nat max_length) eqn:E; [lia | discriminate].
  - apply words_nonempty, Forall_firstn, split_words.
Qed.

(** The merge pass with a pipeline cached: it makes at most one model
    call, on the space-joined summaries, and raises only what that call
    raised and [except Exception] does not catch. *)
Lemma merge_summaries_spec summaries a b w p :
  _cached_pipeline w = Some p ->
  exists r w',
    merge_summaries run summaries a b w = (r, w')
    /\ _cached_pipeline w' = Some p
    /\ history w' = history w ++ merge_events summaries a b
    /\ match r with
       | Ok s =>
           productive run -> 1 <= a -> summaries <> [] ->
           Forall nonempty summaries -> nonempty s
       | Raise e =>
           is_exception e = false
           /\ run p (history w) (join [space] summaries) a b = Raise e
       end.
Proof.
  intros Hc. unfold merge_events.
  destruct summaries as [| x [| y rest]].
  - exists (Ok []), w. simpl. rewrite app_nil_r. repeat split; auto.
    intros _ _ H. contradiction.
  - exists (Ok x), w. simpl. rewrite app_nil_r. repeat split; auto.
    intros _ _ _ H. now inversion H.
  - unfold merge_summaries. cbn [truthy negb].
    change (2 <=? length (x :: y :: rest))%nat with true. cbn [andb].
    set (combined := join [space] (x :: y :: rest)).
    rewrite (Z.ltb_antisym _ a).
    destruct (Z.of_nat (length (split combined)) <=? a) eqn:Hlen; cbn [negb].
    + exists (Ok combined), w. simpl. rewrite app_nil_r. repeat split; auto.
      intros _ _ _ _. apply join_two_nonempty.
    + unfold try_except. rewrite (call_pipeline_cached w p) by assumption.
      destruct (run p (history w) combined a b) as [out | e] eqn:Hrun.
      * eexists (Ok out), _. split; [reflexivity |]. simpl.
        repeat split; auto. intros Hp _ _ _. eapply Hp, Hrun.
      * destruct (is_exception e) eqn:He.
        -- eexists (Ok _), _. split; [reflexivity |]. simpl.
           repeat split; auto. intros _ Ha _ _.
           now apply truncation_nonempty.
        -- eexists (Raise e), _. split; [reflexivity |]. simpl. auto.
Qed.

Lemma summarize_except_returns text e w :
  summarize_except text e w = (Ok (_extractive_fallback text 3, None), w).
Proof. reflexivity. Qed.

(** [summarize] is its [try] block, with a raise that [except Exception]
    catches turned into the extractive fallback. *)
Lemma summarize_unfold text a b w :
  summarize load run text a b w
  = match summarize_try load run text a b w with
    | (Ok res, w') => (Ok res, w')
    | (Raise e, w') =>
        if is_exception e
        then (Ok (_extractive_fallback text 3, None), w')
        else (Raise e, w')
    end.
Proof.
  unfold summarize, try_except.
  now destruct (summarize_try load run text a b w) as [[res | e] w'].
Qed.

(** The handler changes neither the cache nor the history. *)
Lemma summarize_world text a b w :
  snd (summarize load run text a b w)
  = snd (summarize_try load run text a b w).
Proof.
  rewrite summarize_unfold.
  destruct (summarize_try load run text a b w) as [[res | e] w'];
    [reflexivity |].
  now destruct (is_exception e).
Qed.

Lemma summarize_try_blank text a b w :
  blank text = true ->
  summarize_try load run text a b w
  = (Ok ([], Some (lit "Input text is empty")), w).
Proof. intros Hb. unfold summarize_try. now rewrite empty_test, Hb. Qed.

Lemma summarize_try_nonblank text a b w :
  blank text = false ->
  summarize_try load run text a b w
  = mbind (ensure_pipeline load)
      (fun _ => if over_budget text
                then summarize_chunked run text 1024 a b
                else summarize_direct run text a b) w.
Proof. intros Hb. unfold summarize_try. now rewrite empty_test, Hb. Qed.

Lemma summarize_direct_spec text a b w p :
  _cached_pipeline w = Some p ->
  summarize_direct run text a b w
  = (match run p (history w) text a b with
     | Ok s => Ok (s, None)
     | Raise e => Raise e
     end,
     {| _cached_pipeline := Some p;
        history := history w ++ [EvModel text a b] |}).
Proof.
  intros Hc. unfold summarize_direct, mbind.
  rewrite (call_pipeline_cached w p) by assumption.
  now destruct (run p (history w) text a b).
Qed.

Lemma over_budget_has_words text : over_budget text = true -> split text <> [].
Proof.
  unfold over_budget. intros H E. rewrite E in H.
  vm_compute in H. discriminate.
Qed.

(** With the budget of 1024 tokens the chunker returns, and returns at
    least one chunk when the text has a word. *)
Lemma chunk_text_1024 text :
  exists chunks,
    chunk_text text 1024 = Ok chunks
    /\ (split text <> [] -> chunks <> []).
Proof.
  destruct (chunk_text_run text 1024 787 chunk_size_1024 ltac:(lia))
    as (st & Hloop & Hw & _).
  exists (finish st). unfold chunk_text. fold chunker_start. rewrite Hloop.
  split; [reflexivity |]. intros Hne E.
  apply Hne. now rewrite <- Hw, <- finish_words, E.
Qed.

(** The chunked path: one call of the chunker, then the model on the
    chunks up to the first call that raises, then (if no call raised)
    the merge pass. *)
Lemma summarize_chunked_spec text a b w p :
  _cached_pipeline w = Some p ->
  over_budget text = true ->
  exists chunks r w',
    chunk_text text 1024 = Ok chunks
    /\ chunks <> []
    /\ summarize_chunked run text 1024 a b w = (r, w')
    /\ _cached_pipeline w' = Some p
    /\ chunked_outcome run a b p (history w ++ [EvChunk text 1024])
         chunks r (history w').
Proof.
  intros Hc Hover.
  destruct (chunk_text_1024 text) as (chunks & Hchunks & Hne).
  specialize (Hne (over_budget_has_words text Hover)).
  exists chunks. unfold summarize_chunked, mbind, record, lift. rewrite Hchunks.
  set (w1 := {| _cached_pipeline := _cached_pipeline w;
                history := history w ++ [EvChunk text 1024] |}).
  destruct (summarize_chunks_spec p a b chunks w1 Hc)
    as (r & w2 & Hr & Hc2 & Hres).
  rewrite Hr. destruct r as [summaries | e].
  - destruct Hres as [Hans Hh2].
    set (w3 := {| _cached_pipeline := _cached_pipeline w2;
                  history := history w2 ++ [EvMerge summaries] |}).
    destruct (merge_summaries_spec summaries a b w3 p Hc2)
      as (r & w4 & Hm & Hc4 & Hh4 & Hres).
    rewrite Hm.
    assert (Hh : history w4
                 = (history w ++ [EvChunk text 1024])
                   ++ map (fun c => EvModel c a b) chunks
                   ++ EvMerge summaries :: merge_events summaries a b).
    { rewrite Hh4. subst w3. cbn [history]. rewrite Hh2. subst w1.
      cbn [history]. now rewrite <- !app_assoc. }
    assert (Hcall : history w3
                    = (history w ++ [EvChunk text 1024])
                      ++ map (fun c => EvModel c a b) chunks
                      ++ [EvMerge summaries]).
    { subst w3. cbn [history]. rewrite Hh2. subst w1. cbn [history].
      now rewrite <- !app_assoc. }
    destruct r as [s | e].
    + exists (Ok (s, None)), w4. repeat split; trivial.
      right. exists summaries. repeat split; trivial.
      left. exists s. split; [reflexivity |].
      intros Hp Ha. apply Hres; trivial.
      * intros ->. apply answered_length in Hans.
        destruct chunks; [now apply Hne | discriminate].
      * eapply answered_nonempty; eassumption.
    + exists (Raise e), w4. repeat split; trivial.
      right. exists summaries. repeat split; trivial.
      right. exists e. destruct Hres as [He Hrun].
      rewrite Hcall in Hrun. auto.
  - destruct Hres as (n & c & done & Hnth & Hans & Hraise & Hh2).
    exists (Raise e), w2. repeat split; trivial.
    left. exists n, c, done, e. subst w1. cbn [history] in *. auto.
Qed.

Lemma summarize_paths_spec text a b w1 p :
  _cached_pipeline w1 = Some p ->
  exists r w',
    (if over_budget text
     then summarize_chunked run text 1024 a b
     else summarize_direct run text a b) w1 = (r, w')
    /\ path_outcome run text a b w1 p r w'.
Proof.
  intros Hc. unfold path_outcome. destruct (over_budget text) eqn:Hover.
  - destruct (summarize_chunked_spec text a b w1 p Hc Hover)
      as (chunks & r & w' & H1 & H2 & H3 & H4 & H5).
    exists r, w'. split; [exact H3 |]. split; [exact H4 |]. now exists chunks.
  - rewrite (summarize_direct_spec text a b w1 p Hc).
    eexists _, _. split; [reflexivity |]. auto.
Qed.

(** What the [try] block does on a text that passes validation. *)
Lemma summarize_try_spec text a b w :
  blank text = false ->
  exists r w',
    summarize_try load run text a b w = (r, w')
    /\ ((exists e, ensure_pipeline load w = (Raise e, w') /\ r = Raise e
                   /\ _cached_pipeline w = None
                   /\ load (history w) = Raise e)
        \/ (exists w1 p,
               ensure_pipeline load w = (Ok tt, w1)
               /\ _cached_pipeline w1 = Some p
               /\ path_outcome run text a b w1 p r w')).
Proof.
  intros Hb. rewrite summarize_try_nonblank by assumption. unfold mbind.
  destruct (ensure_pipeline_cases w)
    as [(p & Hc & E) | [(p & Hc & E) | (e & Hc & E)]]; rewrite E.
  - destruct (summarize_paths_spec text a b w p Hc) as (r & w' & Hr & Hout).
    exists r, w'. split; [exact Hr |]. right. now exists w, p.
  - set (w1 := {| _cached_pipeline := Some p; history := history w ++ [EvLoad] |}).
    destruct (summarize_paths_spec text a b w1 p eq_refl) as (r & w' & Hr & Hout).
    exists r, w'. split; [exact Hr |]. right. now exists w1, p.
  - eexists _, _. split; [reflexivity |]. left. exists e.
    repeat split; trivial.
    unfold ensure_pipeline in E. rewrite Hc in E.
    destruct (load (history w)); [discriminate | now injection E as ->].
Qed.



(** C4. When every model call raises an error derived from [Exception]
    (and so does the constructor, if this call runs it and it raises),
    a text that passes validation is summarized by its first three
    sentences, joined by single spaces, with no error. *)
Theorem summarize_falls_back text a b w :
  failing run -> load_catchable load w -> blank text = false ->
  fst (summarize load run text a b w)
  = Ok (join [space] (firstn 3 (re_split_sentences text)), None).
Proof.
  intros Hfail Hload Hb. rewrite summarize_unfold.
  destruct (summarize_try_spec text a b w Hb) as (r & w' & -> & Hr).
  assert (Hraise : exists e, r = Raise e /\ is_exception e = true).
  { destruct Hr as [(e & _ & -> & Hc & Hl) | (w1 & p & _ & _ & _ & Hr)].
    { exists e. split; [reflexivity | now apply Hload]. }
    destruct (over_budget text).
    - destruct Hr as (chunks & _ & Hne & Hr).
      destruct Hr as [(n & c & done & e & _ & _ & Hrun & -> & _)
                     | (ss & Hans & _)].
      + exists e. split; [reflexivity |].
        destruct (Hfail p (history w1 ++ [EvChunk text 1024]
                           ++ map (fun c => EvModel c a b) (firstn n chunks))
                    c a b) as (e' & He' & Hexc).
        rewrite <- app_assoc in Hrun. congruence.
      + exfalso. destruct chunks as [| c cs]; [now apply Hne |].
        destruct ss as [| s ss]; [contradiction |]. destruct Hans as [Hrun _].
        destruct (Hfail p (history w1 ++ [EvChunk text 1024]) c a b)
          as (e & He & _).
        congruence.
    - destruct Hr as [-> _].
      destruct (Hfail p (history w1) text a b) as (e & -> & He).
      now exists e. }
  destruct Hraise as (e & -> & ->). simpl. unfold _extractive_fallback.
  now rewrite slice_prefix by lia.
Qed.

(** C5 (amended). For a text that passes validation, once the pipeline
    is available (cached, or its construction succeeds), [summarize]
    calls the chunker if and only if [len(text.split()) * 1.3 > 1024].
    At or below the threshold the only thing it does is one model call
    over the full text. Above it, it calls [chunk_text(text, 1024)],
    which returns at least one chunk, and then the model on the chunks
    in order. Either the model answers the first [n] chunks and raises
    on the next one, which is the last call made; or it answers every
    chunk, and the merge pass runs over exactly those answers, with one
    more model call when there are two or more of them holding more
    than [max_length] words. *)
Theorem summarize_chunker_boundary text a b w w1 :
  blank text = false ->
  ensure_pipeline load w = (Ok tt, w1) ->
  exists p evs,
    _cached_pipeline w1 = Some p
    /\ history (snd (summarize load run text a b w)) = history w1 ++ evs
    /\ ((exists t m, In (EvChunk t m) evs) <-> over_budget text = true)
    /\ (over_budget text = false -> evs = [EvModel text a b])
    /\ (over_budget text = true ->
        exists chunks,
          chunk_text text 1024 = Ok chunks
          /\ chunks <> []
          /\ ((exists n c done e,
                  nth_error chunks n = Some c
                  /\ answered run p a b (history w1 ++ [EvChunk text 1024])
                       (firstn n chunks) done
                  /\ run p (history w1 ++ [EvChunk text 1024]
                            ++ map (fun c => EvModel c a b) (firstn n chunks))
                         c a b = Raise e
                  /\ evs = EvChunk text 1024
                             :: map (fun c => EvModel c a b)
                                  (firstn (S n) chunks))
              \/ (exists summaries,
                     answered run p a b (history w1 ++ [EvChunk text 1024])
                       chunks summaries
                     /\ evs = EvChunk text 1024
                                :: map (fun c => EvModel c a b) chunks
                                ++ EvMerge summaries
                                   :: merge_events summaries a b))).
Proof.
  intros Hb Hens. rewrite summarize_world.
  destruct (summarize_try_spec text a b w Hb) as (r & w' & -> & Hr).
  cbn [snd].
  destruct Hr as [(e & E & _) | (w1' & p & E & Hp & _ & Hr)]; [congruence |].
  rewrite Hens in E. injection E as <-. exists p.
  destruct (over_budget text).
  - destruct Hr as (chunks & Hchunks & Hne & Hr).
    assert (Hevs : exists evs,
               history w' = history w1 ++ evs
               /\ ((exists n c done e,
                       nth_error chunks n = Some c
                       /\ answered run p a b (history w1 ++ [EvChunk text 1024])
                            (firstn n chunks) done
                       /\ run p (history w1 ++ [EvChunk text 1024]
                                 ++ map (fun c => EvModel c a b)
                                      (firstn n chunks))
                              c a b = Raise e
                       /\ evs = EvChunk text 1024
                                  :: map (fun c => EvModel c a b)
                                       (firstn (S n) chunks))
                   \/ (exists summaries,
                          answered run p a b
                            (history w1 ++ [EvChunk text 1024])
                            chunks summaries
                          /\ evs = EvChunk text 1024
                                     :: map (fun c => EvModel c a b) chunks
                                     ++ EvMerge summaries
                                        :: merge_events summaries a b))).
    { destruct Hr as [(n & c & done & e & Hnth & Hans & Hrun & _ & Hh)
                     | (ss & Hans & Hh & _)].
      - eexists. split; [rewrite Hh, <- app_assoc; reflexivity |].
        left. exists n, c, done, e. rewrite <- app_assoc in Hrun. auto.
      - eexists. split; [rewrite Hh, <- app_assoc; reflexivity |].
        right. now exists ss. }
    destruct Hevs as (evs & Hh & Hevs). exists evs.
    split; [exact Hp |]. split; [exact Hh |].
    split; [| split; [discriminate |]].
    + split; [reflexivity |]. intros _. exists text, 1024.
      destruct Hevs as [(n & c & done & e & _ & _ & _ & ->)
                       | (ss & _ & ->)]; now left.
    + intros _. now exists chunks.
  - destruct Hr as [_ Hh]. exists [EvModel text a b].
    split; [exact Hp |]. split; [exact Hh |].
    split; [| split; [reflexivity | discriminate]].
    split; [| discriminate].
    intros (t & m & [[=] | []]).
Qed.

(** C6. A blank text (empty, or nothing but whitespace) is rejected
    with an empty summary and a message that mentions "empty"; the world
    is left as it was: no model call, and the cached handle neither
    created nor changed. *)
Theorem summarize_rejects_blank text a b w :
  blank text = true ->
  exists msg,
    summarize load run text a b w = (Ok ([], Some msg), w)
    /\ exists pre post, msg = pre ++ lit "empty" ++ post.
Proof.
  intros Hb. exists (lit "Input text is empty").
  rewrite summarize_unfold, summarize_try_blank by assumption.
  split; [reflexivity |]. now exists (lit "Input text is "), [].
Qed.


(** C8. No summary merges to the empty string and a single summary to
    itself, in both cases without touching the world: no model call. *)
Theorem merge_summaries_identity :
  (forall a b w, merge_summaries run [] a b w = (Ok (lit ""), w))
  /\ (forall s a b w, merge_summaries run [s] a b w = (Ok s, w)).
Proof. split; intros; reflexivity. Qed.

End Orchestrator.

(** ** Closed instances *)



(** An interrupt raised by the model is not caught: it reaches the
    caller of [summarize]. *)
Example summarize_lets_interrupt_through :
  fst (summarize (fun _ => Ok tt)
         (fun _ _ _ _ _ => Raise (KeyboardInterrupt (lit "")))
         (lit "Hello.") 150 50
         {| _cached_pipeline := None; history := [] |})
  = Raise (KeyboardInterrupt (lit "")).
Proof. vm_compute. reflexivity. Qed.

Lemma summarize_falls_back_witness :
  fst (summarize (fun _ => Ok tt) broken_run
         (lit "One. Two.  Three! Four? Five.") 150 50
         {| _cached_pipeline := None; history := [] |})
  = Ok (lit "One. Two. Three!", None).
Proof.
  apply (summarize_falls_back (fun _ => Ok tt) broken_run
           (lit "One. Two.  Three! Four? Five.") 150 50
           {| _cached_pipeline := None; history := [] |}).
  - intros p h x a b. exists (PipelineError (lit "model unavailable")).
    split; reflexivity.
  - intros e _ [=].
  - reflexivity.
Defined.

(** The threshold sits between 787 and 788 words. *)
Example over_budget_threshold :
  over_budget (n_words 787) = false /\ over_budget (n_words 788) = true.
Proof. split; vm_compute; reflexivity. Qed.

(** For texts of up to 20000 words, the estimate exceeds 1024 exactly
    from 788 words on. *)
Lemma over_budget_788 text :
  Z.of_nat (length (split text)) <= 20000 ->
  over_budget text = true <-> (788 <= length (split text))%nat.
Proof.
  unfold over_budget, times_1_3.
  generalize (length (split text)). intros n Hn.
  assert (Hall : forallb
                   (fun z => Bool.eqb
                               (float_gt_int (float_of_Z z * 1.3) 1024)
                               (788 <=? z))
                   (z_from 0 (Z.to_nat 20001)) = true)
    by (vm_compute; reflexivity).
  rewrite forallb_forall in Hall.
  assert (Hin : In (Z.of_nat n) (z_from 0 (Z.to_nat 20001))).
  { apply in_z_from. rewrite Z2Nat.id; lia. }
  apply Hall, eqb_prop in Hin. rewrite Hin, Z.leb_le. lia.
Qed.

(** C5, as stated, fails: when the pipeline cannot be constructed, a
    text of 788 words (1024.4 estimated tokens) is never handed to the
    chunker; the only thing that happens is the failed construction. *)
Lemma summarize_load_failure_skips_chunker :
  ~ (forall (load0 : list event -> result unit)
            (run0 : unit -> list event -> str -> Z -> Z -> result str)
            text a b,
       text <> [] ->
       (exists t m,
           In (EvChunk t m)
             (history (snd (summarize load0 run0 text a b
                              {| _cached_pipeline := None; history := [] |}))))
       <-> over_budget text = true).
Proof.
  intros H.
  destruct (H (fun _ => Raise (PipelineError (lit "load failed")))
              (fun _ _ x _ _ => Ok x) (n_words 788) 150 50
              ltac:(discriminate)) as [_ Hback].
  destruct (Hback ltac:(vm_compute; reflexivity)) as (t & m & Hin).
  vm_compute in Hin. destruct Hin as [[=] | []].
Qed.

Lemma summarize_chunker_boundary_witness :
  history (snd (summarize (fun _ => Ok tt) first_word_run
                  (lit "Hi. " ++ n_words 800) 50 10
                  {| _cached_pipeline := None; history := [] |}))
  = [EvLoad; EvChunk (lit "Hi. " ++ n_words 800) 1024;
     EvModel (lit "Hi.") 50 10; EvModel (n_words 800) 50 10;
     EvMerge [lit "Hi."; lit "w"]].
Proof.
  destruct (summarize_chunker_boundary
              (fun _ => Ok tt) first_word_run
              (lit "Hi. " ++ n_words 800) 50 10
              {| _cached_pipeline := None; history := [] |}
              {| _cached_pipeline := Some tt; history := [EvLoad] |})
    as (p & evs & _ & Hh & _ & _ & Hover).
  - vm_compute. reflexivity.
  - reflexivity.
  - rewrite Hh. destruct Hover as (chunks & Hchunks & _ & Hcalls).
    + vm_compute. reflexivity.
    + assert (E : chunks = [lit "Hi."; n_words 800]).
      { assert (E0 : chunk_text (lit "Hi. " ++ n_words 800) 1024
                     = Ok [lit "Hi."; n_words 800])
          by (vm_compute; reflexivity).
        rewrite E0 in Hchunks. now injection Hchunks. }
      subst chunks.
      destruct Hcalls as [(n & c & done & e & _ & _ & Hrun & _)
                         | (summaries & Hans & ->)].
      { exfalso. clear -Hrun. unfold first_word_run in Hrun.
        discriminate Hrun. }
      destruct summaries as [| s1 [| s2 [| s3 ss]]]; cbn [answered] in Hans;
        try tauto.
      destruct Hans as [H1 [H2 _]].
      match type of H1 with
      | first_word_run ?p ?h ?x ?a ?b = _ =>
          assert (E1 : first_word_run p h x a b = Ok (lit "Hi."))
            by (vm_compute; reflexivity)
      end.
      rewrite E1 in H1. injection H1 as <-.
      match type of H2 with
      | first_word_run ?p ?h ?x ?a ?b = _ =>
          assert (E2 : first_word_run p h x a b = Ok (lit "w"))
            by (vm_compute; reflexivity)
      end.
      rewrite E2 in H2. injection H2 as <-.
      vm_compute. reflexivity.
Defined.

Lemma summarize_rejects_blank_witness :
  exists msg,
    summarize (fun _ => Ok tt) broken_run (lit "   ") 150 50
      {| _cached_pipeline := None; history := [] |}
    = (Ok ([], Some msg), {| _cached_pipeline := None; history := [] |})
    /\ exists pre post, msg = pre ++ lit "empty" ++ post.
Proof.
  apply (summarize_rejects_blank (fun _ => Ok tt) broken_run (lit "   ") 150 50
           {| _cached_pipeline := None; history := [] |}).
  reflexivity.
Defined.


(** With a negative [max_length] the fallback is not a prefix of
    [-max_length] words: [words[:-2]] drops the last two words. *)
Example merge_summaries_negative_length :
  merge_summaries broken_run [lit "a b c"; lit "d e f"] (-2) 1
    {| _cached_pipeline := Some tt; history := [] |}
  = (Ok (lit "a b c d"),
     {| _cached_pipeline := Some tt;
        history := [EvModel (lit "a b c d e f") (-2) 1] |}).
Proof. vm_compute. reflexivity. Qed.


(* ================================================================== *)
(** * Export validation *)
(* ================================================================== *)

(** C9. [validate_export_inputs] names the transcript when the
    transcript is blank, else names the summary when the summary is
    blank, else returns [None]. *)
Theorem validate_export_inputs_spec :
  (forall transcript summary,
      validate_export_inputs transcript summary
      = if blank transcript
        then Some (lit "Transcript is empty. Cannot export.")
        else if blank summary
             then Some (lit "Summary is empty. Cannot export.")
             else None)
  /\ validate_export_inputs (lit "") (lit "x")
     = Some (lit "Transcript is empty. Cannot export.")
  /\ validate_export_inputs (lit "x") (lit "")
     = Some (lit "Summary is empty. Cannot export.")
  /\ validate_export_inputs (lit "x") (lit "y") = None.
Proof.
  split; [| repeat split].
  intros transcript summary. unfold validate_export_inputs.
  now rewrite !empty_test.
Qed.

(* ================================================================== *)
(** * The cached pipeline over several calls *)
(* ================================================================== *)

Section Lifecycle.

Context {Handle : Type}.
Variable load : list event -> result Handle.
Variable run : Handle -> list event -> str -> Z -> Z -> result str.

Implicit Types (w : world Handle) (p : Handle).

Lemma steady_ret {A} p (a : A) : steady p (ret a).
Proof.
  intros w Hc. simpl. split; [assumption |].
  exists []. rewrite app_nil_r. auto.
Qed.

Lemma steady_lift {A} p (r : result A) : steady p (lift r).
Proof.
  intros w Hc. simpl. split; [assumption |].
  exists []. rewrite app_nil_r. auto.
Qed.

Lemma steady_record p ev : ev <> EvLoad -> steady p (record ev).
Proof.
  intros Hev w Hc. simpl. split; [assumption |].
  exists [ev]. split; [reflexivity |]. intros [E | []]. now apply Hev.
Qed.

Lemma steady_bind {A B} p (m : M Handle A) (k : A -> M Handle B) :
  steady p m -> (forall a, steady p (k a)) -> steady p (mbind m k).
Proof.
  intros Hm Hk w Hc. unfold mbind.
  destruct (Hm w Hc) as (Hc1 & evs1 & Hh1 & Hn1).
  destruct (m w) as [[a | e] w1]; simpl in *.
  - destruct (Hk a w1 Hc1) as (Hc2 & evs2 & Hh2 & Hn2).
    split; [assumption |]. exists (evs1 ++ evs2). split.
    + now rewrite Hh2, Hh1, app_assoc.
    + intros Hin. apply in_app_or in Hin as [Hin | Hin]; auto.
  - split; [assumption |]. now exists evs1.
Qed.

Lemma steady_try {A} p (body : M Handle A) (handler : exn -> M Handle A) :
  steady p body -> (forall e, steady p (handler e)) ->
  steady p (try_except body handler).
Proof.
  intros Hm Hk w Hc. unfold try_except.
  destruct (Hm w Hc) as (Hc1 & evs1 & Hh1 & Hn1).
  destruct (body w) as [[a | e] w1]; simpl in *.
  - split; [assumption |]. now exists evs1.
  - destruct (is_exception e); [| split; [assumption | now exists evs1]].
    destruct (Hk e w1 Hc1) as (Hc2 & evs2 & Hh2 & Hn2).
    split; [assumption |]. exists (evs1 ++ evs2). split.
    + now rewrite Hh2, Hh1, app_assoc.
    + intros Hin. apply in_app_or in Hin as [Hin | Hin]; auto.
Qed.

Lemma steady_ensure p : steady p (ensure_pipeline load).
Proof.
  intros w Hc. unfold ensure_pipeline. rewrite Hc. simpl.
  split; [assumption |]. exists []. rewrite app_nil_r. auto.
Qed.

Lemma steady_call p x a b : steady p (call_pipeline run x a b).
Proof.
  intros w Hc. rewrite (call_pipeline_cached run w p) by assumption. simpl.
  split; [reflexivity |]. exists [EvModel x a b]. split; [reflexivity |].
  intros [[=] | []].
Qed.

Lemma steady_chunks p chunks a b : steady p (summarize_chunks run chunks a b).
Proof.
  induction chunks as [| c rest IH]; simpl.
  - apply steady_ret.
  - apply steady_bind; [apply steady_call |]. intros s.
    apply steady_bind; [exact IH |]. intros ss. apply steady_ret.
Qed.

Lemma steady_merge p summaries a b : steady p (merge_summaries run summaries a b).
Proof.
  unfold merge_summaries. destruct summaries as [| x [| y rest]]; cbn [truthy negb].
  - apply steady_ret.
  - apply steady_ret.
  - destruct (_ <=? a).
    + apply steady_ret.
    + apply steady_try; [apply steady_call |]. intros e. apply steady_ret.
Qed.

Lemma steady_summarize p text a b : steady p (summarize load run text a b).
Proof.
  unfold summarize. apply steady_try.
  - unfold summarize_try. destruct (_ || _).
    + apply steady_ret.
    + apply steady_bind; [apply steady_ensure |]. intros _.
      destruct (float_gt_int _ _).
      * unfold summarize_chunked.
        apply steady_bind; [apply steady_record; discriminate |]. intros _.
        apply steady_bind; [apply steady_lift |]. intros chunks.
        apply steady_bind; [apply steady_chunks |]. intros summaries.
        apply steady_bind; [apply steady_record; discriminate |]. intros _.
        apply steady_bind; [apply steady_merge |]. intros s. apply steady_ret.
      * unfold summarize_direct.
        apply steady_bind; [apply steady_call |]. intros s. apply steady_ret.
  - intros e. unfold summarize_except. apply steady_try.
    + apply steady_ret.
    + intros e'. apply steady_ret.
Qed.

(** X1. Once a pipeline is cached, [summarize] keeps it: whatever the
    text and whatever the model does, the call ends with the same
    pipeline cached and constructs no other. *)
Theorem summarize_keeps_cached_pipeline text a b w p :
  _cached_pipeline w = Some p ->
  _cached_pipeline (snd (summarize load run text a b w)) = Some p
  /\ exists evs,
       history (snd (summarize load run text a b w)) = history w ++ evs
       /\ ~ In EvLoad evs.
Proof. intros Hc. now apply steady_summarize. Qed.

(** What a call does when no pipeline is cached and the text passes
    validation: the construction comes first, and it is the only one. *)
Lemma summarize_uncached text a b w :
  _cached_pipeline w = None -> blank text = false ->
  exists evs,
    history (snd (summarize load run text a b w)) = history w ++ EvLoad :: evs
    /\ ~ In EvLoad evs
    /\ _cached_pipeline (snd (summarize load run text a b w))
       = match load (history w) with
         | Ok p => Some p
         | Raise _ => None
         end.
Proof.
  intros Hc Hb. rewrite summarize_world.
  rewrite summarize_try_nonblank by assumption.
  unfold mbind, ensure_pipeline. rewrite Hc.
  destruct (load (history w)) as [p | e].
  - set (w1 := {| _cached_pipeline := Some p; history := history w ++ [EvLoad] |}).
    set (k := if over_budget text
              then summarize_chunked run text 1024 a b
              else summarize_direct run text a b).
    assert (Hk : steady p k).
    { subst k. destruct (over_budget text).
      - unfold summarize_chunked.
        apply steady_bind; [apply steady_record; discriminate |]. intros _.
        apply steady_bind; [apply steady_lift |]. intros chunks.
        apply steady_bind; [apply steady_chunks |]. intros summaries.
        apply steady_bind; [apply steady_record; discriminate |]. intros _.
        apply steady_bind; [apply steady_merge |]. intros s. apply steady_ret.
      - unfold summarize_direct.
        apply steady_bind; [apply steady_call |]. intros s. apply steady_ret. }
    destruct (Hk w1 eq_refl) as (Hc' & evs & Hh & Hn).
    exists evs. fold w1. fold k. destruct (k w1) as [[res | e] w']; simpl in *;
      (split; [rewrite Hh; now rewrite <- app_assoc | now split]).
  - simpl. exists []. repeat split; auto.
Qed.

(** X2. With no pipeline cached, a call on a text that passes validation
    constructs the pipeline exactly once, before anything else. The
    pipeline is cached if and only if the construction returned: a
    construction that raised leaves the cache empty, so the next call
    tries again. *)
Theorem summarize_constructs_once text a b w :
  _cached_pipeline w = None -> blank text = false ->
  exists evs,
    history (snd (summarize load run text a b w)) = history w ++ EvLoad :: evs
    /\ ~ In EvLoad evs
    /\ _cached_pipeline (snd (summarize load run text a b w))
       = match load (history w) with
         | Ok p => Some p
         | Raise _ => None
         end.
Proof.
  intros Hc Hb.
  destruct (summarize_uncached text a b w Hc Hb) as (evs & H1 & H2 & H3).
  exists evs. auto.
Qed.

(** X3. After [clear_pipeline_cache] the report says that nothing is
    loaded, the history is untouched, and the next call on a text that
    passes validation starts by constructing a pipeline again. *)
Theorem clear_pipeline_cache_resets handle_truthy text a b w :
  let w0 := snd (clear_pipeline_cache w) in
  SummarizeInfo.get_pipeline_info handle_truthy w0
  = {| SummarizeInfo.is_loaded := false; SummarizeInfo.model := None |}
  /\ history w0 = history w
  /\ (blank text = false ->
      exists evs,
        history (snd (summarize load run text a b w0))
        = history w ++ EvLoad :: evs).
Proof.
  simpl. repeat split.
  intros Hb.
  destruct (summarize_uncached text a b
              {| _cached_pipeline := None; history := history w |}
              eq_refl Hb) as (evs & H & _).
  now exists evs.
Qed.


End Lifecycle.

(* ================================================================== *)
(** * More on the merge pass and the fallback *)
(* ================================================================== *)

Section MergeMore.

Context {Handle : Type}.
Variable run : Handle -> list event -> str -> Z -> Z -> result str.

Implicit Types (w : world Handle) (p : Handle).

(** [l[:n]] is always a prefix of [l], also for a negative [n]. *)
Lemma slice_from_0 {A} (l : list A) (n : Z) :
  exists k, slice l 0 n = firstn k l.
Proof.
  unfold slice. cbv zeta.
  assert (E : clamp (Z.of_nat (length l)) 0 = 0).
  { unfold clamp. change (0 <? 0) with false. cbv iota. lia. }
  rewrite E. simpl skipn. eexists. reflexivity.
Qed.

Lemma firstn_length_bound {A} (l : list A) (n : Z) :
  0 <= n -> Z.of_nat (length (firstn (Z.to_nat n) l)) <= n.
Proof. intros Hn. rewrite length_firstn. lia. Qed.

(** X5. When the merge pass calls the model: exactly when it is given
    two or more summaries, their space-joined text has more than
    [max_length] words, and a pipeline is cached. It then makes that one
    call, on the joined text; in every other case it leaves the world
    as it found it. The cache is never touched. *)
Theorem merge_summaries_model_call summaries a b w :
  let joined := join [space] summaries in
  let w' := snd (merge_summaries run summaries a b w) in
  _cached_pipeline w' = _cached_pipeline w
  /\ history w'
     = history w ++
       (if (2 <=? length summaries)%nat
           && (a <? Z.of_nat (length (split joined)))
           && (match _cached_pipeline w with Some _ => true | None => false end)
        then [EvModel joined a b]
        else []).
Proof.
  destruct summaries as [| x [| y rest]].
  - simpl. now rewrite app_nil_r.
  - simpl. now rewrite app_nil_r.
  - cbv zeta. unfold merge_summaries. cbn [truthy negb].
    change (2 <=? length (x :: y :: rest))%nat with true. cbn [andb].
    rewrite Z.leb_antisym.
    destruct (a <? _); cbn [negb andb].
    + unfold try_except, call_pipeline.
      destruct (_cached_pipeline w) as [p |] eqn:Hc.
      * destruct (run p (history w) _ a b) as [out | e]; simpl; auto.
        destruct (is_exception e); simpl; auto.
      * simpl. now rewrite app_nil_r.
    + simpl. now rewrite app_nil_r.
Qed.

(** X6. Called with no pipeline cached (as the unit tests call it), the
    merge pass returns without raising and without recording anything;
    the words of its result are a prefix of the summaries' words, in
    order; and for two or more summaries and [max_length >= 0] the
    result has at most [max_length] words. *)
Theorem merge_summaries_without_pipeline summaries a b w :
  _cached_pipeline w = None ->
  exists s,
    merge_summaries run summaries a b w = (Ok s, w)
    /\ (exists k, split s = firstn k (concat (map split summaries)))
    /\ ((2 <= length summaries)%nat -> 0 <= a ->
        Z.of_nat (length (split s)) <= a).
Proof.
  intros Hc. destruct summaries as [| x [| y rest]].
  - exists []. split; [reflexivity |]. split; [now exists 0%nat |].
    simpl. lia.
  - exists x. split; [reflexivity |]. split; [| simpl; lia].
    exists (length (split x)). simpl. now rewrite app_nil_r, firstn_all.
  - unfold merge_summaries. cbn [truthy negb].
    set (joined := join [space] (x :: y :: rest)).
    assert (Hwords : split joined = concat (map split (x :: y :: rest)))
      by apply split_join.
    destruct (Z.of_nat (length (split joined)) <=? a) eqn:Hlen.
    + exists joined. split; [reflexivity |]. split.
      * exists (length (split joined)). now rewrite <- Hwords, firstn_all.
      * intros _ _. now apply Z.leb_le.
    + unfold try_except, call_pipeline. rewrite Hc. simpl.
      eexists. split; [reflexivity |].
      assert (Hw : forall k, split (join [space] (firstn k (split joined)))
                             = firstn k (split joined)).
      { intros k. apply split_join_words, Forall_firstn, split_words. }
      split.
      * destruct (slice_from_0 (split joined) a) as [k ->].
        exists k. now rewrite Hw, Hwords.
      * intros _ Ha. rewrite slice_prefix, Hw by assumption.
        now apply firstn_length_bound.
Qed.

End MergeMore.

Section FallbackMore.

(** X7. The words of the extractive fallback are the first words of the
    text, in order, whatever [num_sentences] is; and when the text has
    no more than [num_sentences] sentences the fallback is all of its
    sentences joined by single spaces, with every word of the text. *)
Theorem extractive_fallback_prefix text num_sentences :
  (exists rest,
      split text = split (_extractive_fallback text num_sentences) ++ rest)
  /\ (Z.of_nat (length (re_split_sentences text)) <= num_sentences ->
      _extractive_fallback text num_sentences
      = join [space] (re_split_sentences text)
      /\ split (_extractive_fallback text num_sentences) = split text).
Proof.
  unfold _extractive_fallback. split.
  - destruct (slice_from_0 (re_split_sentences text) num_sentences) as [k ->].
    exists (concat (map split (skipn k (re_split_sentences text)))).
    rewrite split_join, <- concat_app, <- map_app, firstn_skipn.
    symmetry. apply re_split_words.
  - intros Hn. assert (Hpos : 0 <= num_sentences) by lia.
    rewrite slice_prefix, firstn_all2 by lia.
    split; [reflexivity |]. rewrite split_join. apply re_split_words.
Qed.

End FallbackMore.

(* ================================================================== *)
(** * More on the chunker *)
(* ================================================================== *)

Section ChunkerMore.

Lemma range_negative_step (n : nat) (step : Z) :
  step < 0 -> range 0 (Z.of_nat n) step = Ok [].
Proof.
  intros Hs. unfold range.
  destruct (Z.eqb_spec step 0); [lia |].
  destruct (Z.ltb_spec 0 step); [lia |].
  replace (Z.to_nat ((0 - Z.of_nat n - step - 1) / - step)) with 0%nat;
    [reflexivity |].
  assert ((0 - Z.of_nat n - step - 1) / - step < 1); [| lia].
  apply Z.div_lt_upper_bound; lia.
Qed.

(** X8. The hard split, by the sign of its group size
    [k = int(max_tokens / 1.3)]. For [k > 0] it returns groups that
    hold the words of the sentence in order, each of at least one and at
    most [k] words. For [k = 0] it raises the [ValueError] of
    [range()]. For [k < 0] the range is empty: it returns no chunk at
    all, and the words of the sentence are lost. *)
Theorem hard_split_by_group_size sentence max_tokens k :
  chunk_size_of max_tokens = Ok k ->
  (0 < k ->
   exists groups,
     hard_split sentence max_tokens = Ok groups
     /\ concat (map split groups) = split sentence
     /\ Forall (fun g => (1 <= length (split g))%nat
                         /\ Z.of_nat (length (split g)) <= k) groups)
  /\ (k = 0 ->
      hard_split sentence max_tokens
      = Raise (ValueError (lit "range() arg 3 must not be zero")))
  /\ (k < 0 -> hard_split sentence max_tokens = Ok []).
Proof.
  intros Hsize. split; [| split].
  - intros Hpos. unfold hard_split. rewrite Hsize. simpl.
    destruct (range_groups k Hpos (length (split sentence)))
      as (c & -> & Hcover & Hin).
    simpl. eexists. split; [reflexivity |].
    set (kn := Z.to_nat k) in *.
    assert (Hk : k = Z.of_nat kn) by lia.
    assert (Hgroup : forall j,
               slice (split sentence) (Z.of_nat (j * kn)) (Z.of_nat (j * kn) + k)
               = firstn kn (skipn (j * kn) (split sentence))).
    { intros j. rewrite Hk. apply slice_nat. }
    assert (Hsplit : forall j,
               split (join [space] (firstn kn (skipn (j * kn) (split sentence))))
               = firstn kn (skipn (j * kn) (split sentence))).
    { intros j. apply split_join_words.
      apply Forall_firstn, Forall_skipn, split_words. }
    rewrite !map_map. split.
    + rewrite (map_ext _ (fun j => firstn kn (skipn (j * kn) (split sentence)))).
      * rewrite concat_groups. now apply firstn_all2.
      * intros j. now rewrite Hgroup.
    + apply Forall_forall. intros g Hg.
      apply in_map_iff in Hg as (j & <- & Hj). apply in_seq in Hj.
      rewrite Hgroup, Hsplit. specialize (Hin j ltac:(lia)).
      rewrite length_firstn, length_skipn. lia.
  - intros ->. unfold hard_split. rewrite Hsize. reflexivity.
  - intros Hneg. unfold hard_split. rewrite Hsize. simpl.
    now rewrite range_negative_step.
Qed.

(** A budget of -2 tokens: the only sentence overflows, its hard split
    is empty, and the result has no chunk. *)
Example chunk_text_negative_budget :
  chunk_size_of (-2) = Ok (-1)
  /\ chunk_text (lit "Three little words.") (-2) = Ok [].
Proof. split; vm_compute; reflexivity. Qed.

(** X9. With the budget of 1024 tokens that [summarize] uses, every
    chunk the hard split makes fits the budget: its estimate
    [words * 1.3] does not exceed 1024. *)
Theorem hard_split_1024_fits sentence groups :
  hard_split sentence 1024 = Ok groups ->
  Forall (fun g => float_gt_int (times_1_3 (length (split g))) 1024 = false)
         groups.
Proof.
  intros H.
  destruct (hard_split_by_group_size sentence 1024 787 chunk_size_1024)
    as [Hpos _].
  destruct (Hpos ltac:(lia)) as (groups' & E & _ & Hsizes).
  rewrite E in H. injection H as <-.
  assert (Hall : forallb (fun n => negb (float_gt_int (times_1_3 n) 1024))
                   (seq 0 788) = true) by (vm_compute; reflexivity).
  rewrite forallb_forall in Hall.
  eapply Forall_impl; [| exact Hsizes]. intros g [_ Hg]. simpl.
  apply negb_true_iff, Hall, in_seq. lia.
Qed.

Lemma assembled_app max_tokens s1 c1 s2 c2 :
  assembled max_tokens s1 c1 -> assembled max_tokens s2 c2 ->
  assembled max_tokens (s1 ++ s2) (c1 ++ c2).
Proof.
  intros H1 H2.
  induction H1 as [| g rest chunks Hg _ IH | s gs rest chunks Hs Hne Hw _ IH].
  - exact H2.
  - rewrite <- app_assoc. simpl. now constructor.
  - simpl. rewrite <- app_assoc. now constructor.
Qed.

Lemma assembled_one_run max_tokens group :
  group <> [] -> assembled max_tokens group [join [space] group].
Proof.
  intros Hg. rewrite <- (app_nil_r group) at 1.
  constructor; [assumption | constructor].
Qed.

Lemma assembled_one_split max_tokens sentence groups :
  hard_split sentence max_tokens = Ok groups ->
  groups <> [] ->
  concat (map split groups) = split sentence ->
  assembled max_tokens [sentence] groups.
Proof.
  intros H Hne Hw. rewrite <- (app_nil_r groups).
  econstructor; [eassumption | assumption | assumption | constructor].
Qed.

(** One iteration keeps the closed chunks assembled from the sentences
    that are no longer in the current chunk. The hard split runs only
    while nothing has been added to the current chunk, so on a sentence
    that has a word. *)
Lemma chunk_step_assembled max_tokens k st sentence done :
  chunk_size_of max_tokens = Ok k -> 0 < k -> 0 <= max_tokens ->
  (current_chunk st = [] -> current_length st = 0%float) ->
  assembled max_tokens done (chunks st) ->
  exists st' done',
    chunk_step max_tokens st sentence = Ok st'
    /\ (current_chunk st' = [] -> current_length st' = 0%float)
    /\ done ++ current_chunk st ++ [sentence] = done' ++ current_chunk st'
    /\ assembled max_tokens done' (chunks st').
Proof.
  unfold chunk_step. intros Hsize Hpos Hmax Hzero Hdone.
  destruct (float_gt_int _ _) eqn:Hgt.
  - destruct (current_chunk st) as [| s0 cur] eqn:Hcur; cbn [truthy].
    + destruct (hard_split_ok max_tokens k Hsize Hpos sentence)
        as (groups & Hhs & Hw & _).
      assert (Hwords : split sentence <> []).
      { intros E. rewrite Hzero, E in Hgt by reflexivity.
        simpl length in Hgt. rewrite zero_tokens_fit in Hgt by assumption.
        discriminate. }
      rewrite Hhs. simpl. eexists _, (done ++ [sentence]).
      split; [reflexivity |]. cbn [chunks current_chunk current_length].
      split; [intros _; now apply Hzero |]. split.
      * now rewrite app_nil_r.
      * apply assembled_app; [assumption |].
        apply assembled_one_split; trivial.
        intros ->. now apply Hwords.
    + eexists _, (done ++ s0 :: cur).
      split; [reflexivity |]. cbn [chunks current_chunk current_length].
      split; [discriminate |]. split.
      * now rewrite <- !app_assoc.
      * apply assembled_app; [assumption |].
        apply assembled_one_run. discriminate.
  - eexists _, done. split; [reflexivity |].
    cbn [chunks current_chunk current_length].
    split; [| split; [reflexivity | assumption]].
    intros E. now apply app_eq_nil in E as [_ [=]].
Qed.

Lemma chunk_loop_assembled max_tokens k sentences : forall st done,
  chunk_size_of max_tokens = Ok k -> 0 < k -> 0 <= max_tokens ->
  (current_chunk st = [] -> current_length st = 0%float) ->
  assembled max_tokens done (chunks st) ->
  exists st' done',
    chunk_loop max_tokens st sentences = Ok st'
    /\ done ++ current_chunk st ++ sentences = done' ++ current_chunk st'
    /\ assembled max_tokens done' (chunks st').
Proof.
  induction sentences as [| s rest IH];
    intros st done Hsize Hpos Hmax Hzero Hdone.
  - exists st, done. rewrite app_nil_r. auto.
  - simpl chunk_loop.
    destruct (chunk_step_assembled max_tokens k st s done
                Hsize Hpos Hmax Hzero Hdone)
      as (st1 & d1 & Hstep & Hzero1 & E1 & Hd1).
    rewrite Hstep. cbn [bind].
    destruct (IH st1 d1 Hsize Hpos Hmax Hzero1 Hd1)
      as (st' & d2 & Hloop & E2 & Hd2).
    exists st', d2. split; [exact Hloop |]. split; [| assumption].
    rewrite <- E2.
    change (s :: rest) with ([s] ++ rest).
    now rewrite !app_assoc, <- (app_assoc done), E1.
Qed.

(** X10. For a budget that is not negative and has a positive hard-split
    group size, [chunk_text] returns, and its chunks are assembled from
    the sentences of the text in order, none left out and none used
    twice: each chunk is a run of one or more consecutive whole
    sentences joined by single spaces, except that the chunks of a hard
    split are one or more groups that hold the words of one sentence. A
    sentence is never divided between two chunks in any other way. (For
    a negative budget the hard split returns no group and the sentence
    is lost.) *)
Theorem chunk_text_assembled text max_tokens :
  0 <= max_tokens -> positive_size max_tokens = true ->
  exists chunks,
    chunk_text text max_tokens = Ok chunks
    /\ assembled max_tokens (re_split_sentences text) chunks.
Proof.
  intros Hmax Hsize. unfold positive_size in Hsize.
  destruct (chunk_size_of max_tokens) as [k |] eqn:Hk; [| discriminate].
  apply Z.ltb_lt in Hsize.
  destruct (chunk_loop_assembled max_tokens k (re_split_sentences text)
              chunker_start [] Hk Hsize Hmax (fun _ => eq_refl)
              (assembled_nil _))
    as (st & done & Hloop & E & Hdone).
  unfold chunk_text. fold chunker_start. rewrite Hloop.
  eexists. split; [reflexivity |].
  simpl in E. rewrite E. unfold finish.
  destruct (current_chunk st) as [| s0 cur]; cbn [truthy].
  - now rewrite app_nil_r.
  - apply assembled_app; [assumption |].
    apply assembled_one_run. discriminate.
Qed.

End ChunkerMore.

(* ================================================================== *)
(** * utils.py: word counts, truncation, file names *)
(* ================================================================== *)

Section UtilsFacts.

Lemma split_go_nil cur s : split_go cur s = [] -> cur = [] /\ blank s = true.
Proof.
  revert cur. induction s as [| c s IH]; intros cur H; simpl in *.
  - split; [| reflexivity]. destruct cur; [reflexivity | discriminate].
  - destruct (isspace c) eqn:Hc.
    + apply app_eq_nil in H as [Hf Hs]. apply IH in Hs as [_ Hs].
      split; [destruct cur; [reflexivity | discriminate] | exact Hs].
    + apply IH in H as [[=] _].
Qed.

(** A text has no word exactly when it is blank. *)
Lemma split_nil_iff_blank s : split s = [] <-> blank s = true.
Proof.
  split; [| apply split_blank].
  intros H. now apply split_go_nil in H.
Qed.

(** X11. [count_words] is the number of whitespace-separated words; it
    is zero exactly on blank texts; and [validate_export_inputs] lets a
    transcript and a summary through exactly when both count at least
    one word, so that the word count an export divides by is never
    zero after validation. *)
Theorem count_words_validate transcript summary :
  count_words transcript = length (split transcript)
  /\ (count_words transcript = 0%nat <-> blank transcript = true)
  /\ (validate_export_inputs transcript summary = None
      <-> (0 < count_words transcript)%nat /\ (0 < count_words summary)%nat).
Proof.
  assert (Hcw : forall t, count_words t = length (split t)).
  { intros [| c t]; reflexivity. }
  assert (Hzero : forall t, count_words t = 0%nat <-> blank t = true).
  { intros t. rewrite Hcw, <- split_nil_iff_blank.
    destruct (split t); simpl; split; congruence. }
  split; [apply Hcw |]. split; [apply Hzero |].
  unfold validate_export_inputs. rewrite !empty_test.
  destruct (blank transcript) eqn:Ht.
  - apply Hzero in Ht. split; [discriminate | lia].
  - destruct (blank summary) eqn:Hs.
    + apply Hzero in Hs. split; [discriminate | lia].
    + split; [| reflexivity]. intros _.
      destruct (count_words transcript) eqn:E1;
        [apply Hzero in E1; congruence |].
      destruct (count_words summary) eqn:E2;
        [apply Hzero in E2; congruence |]. lia.
Qed.

(** X12. When the suffix is no longer than [max_length], the result of
    [truncate_text] never exceeds [max_length] characters: a text that
    fits comes back unchanged, a longer one is cut to exactly
    [max_length] characters, the last of which are the suffix; and
    truncating twice changes nothing more. *)
Theorem truncate_text_bound text max_length suffix :
  Z.of_nat (length suffix) <= max_length ->
  Z.of_nat (length (truncate_text text max_length suffix)) <= max_length
  /\ (Z.of_nat (length text) <= max_length ->
      truncate_text text max_length suffix = text)
  /\ (max_length < Z.of_nat (length text) ->
      truncate_text text max_length suffix
      = firstn (Z.to_nat (max_length - Z.of_nat (length suffix))) text ++ suffix
      /\ Z.of_nat (length (truncate_text text max_length suffix)) = max_length)
  /\ truncate_text (truncate_text text max_length suffix) max_length suffix
     = truncate_text text max_length suffix.
Proof.
  intros Hs.
  assert (Hfixed : forall r, Z.of_nat (length r) <= max_length ->
                             truncate_text r max_length suffix = r).
  { intros r Hr. unfold truncate_text. now apply Z.leb_le in Hr as ->. }
  destruct (Z.leb_spec (Z.of_nat (length text)) max_length) as [Hfit | Hlong].
  - rewrite !(Hfixed text Hfit). repeat split; trivial; lia.
  - assert (E : truncate_text text max_length suffix
                = firstn (Z.to_nat (max_length - Z.of_nat (length suffix))) text
                  ++ suffix).
    { unfold truncate_text. apply Z.leb_gt in Hlong as ->.
      now rewrite slice_prefix by lia. }
    assert (Hlen : Z.of_nat (length (truncate_text text max_length suffix))
                   = max_length).
    { rewrite E, length_app, length_firstn. lia. }
    repeat split; trivial; try lia.
    apply Hfixed. lia.
Qed.

(** With a suffix longer than [max_length] the slice bound is negative
    and counts from the end: the result is longer than the limit, here
    longer than the text itself. *)
Example truncate_text_short_limit :
  truncate_text (lit "abcdefgh") 2 (lit "...") = lit "abcdefg...".
Proof. vm_compute. reflexivity. Qed.

Lemma rfind_from_bounds c s : forall i best,
  -1 <= best < i ->
  -1 <= rfind_from c s i best < i + Z.of_nat (length s).
Proof.
  induction s as [| x s IH]; intros i best H; simpl rfind_from.
  - simpl. lia.
  - destruct (x =? c)%N.
    + specialize (IH (i + 1) i ltac:(lia)). simpl length. lia.
    + specialize (IH (i + 1) best ltac:(lia)). simpl length. lia.
Qed.

Lemma rfind_bounds c s : -1 <= rfind c s < Z.of_nat (length s).
Proof.
  pose proof (rfind_from_bounds c s 0 (-1) ltac:(lia)). unfold rfind. lia.
Qed.

Lemma slice_suffix {A} (l : list A) (d : Z) :
  0 <= d <= Z.of_nat (length l) ->
  slice l d (Z.of_nat (length l)) = skipn (Z.to_nat d) l.
Proof.
  intros Hd. unfold slice, clamp.
  destruct (Z.ltb_spec d 0); [lia |].
  destruct (Z.ltb_spec (Z.of_nat (length l)) 0); [lia |].
  rewrite (Z.min_l d), Z.min_id by lia.
  apply firstn_all2. rewrite length_skipn. lia.
Qed.

(** [splitext] cuts its argument in two. *)
Lemma splitext_app p : fst (splitext p) ++ snd (splitext p) = p.
Proof.
  unfold splitext. destruct (_ && _) eqn:E; simpl.
  - apply andb_prop in E as [Hlt _]. apply Z.ltb_lt in Hlt.
    pose proof (rfind_bounds 47%N p). pose proof (rfind_bounds 46%N p).
    rewrite slice_prefix, slice_suffix by lia.
    apply firstn_skipn.
  - apply app_nil_r.
Qed.

Lemma Forall_slice {A} (P : A -> Prop) l lo hi :
  Forall P l -> Forall P (slice l lo hi).
Proof. intros H. unfold slice. now apply Forall_firstn, Forall_skipn. Qed.

Lemma Forall_lstrip_chars (P : char -> Prop) chars s :
  Forall P s -> Forall P (lstrip_chars chars s).
Proof.
  induction 1 as [| c s Hc Hs IH]; simpl; [constructor |].
  destruct (existsb (N.eqb c) chars); [assumption | now constructor].
Qed.

Lemma Forall_strip_chars (P : char -> Prop) chars s :
  Forall P s -> Forall P (strip_chars chars s).
Proof.
  intros H. unfold strip_chars.
  apply Forall_rev, Forall_lstrip_chars, Forall_rev, Forall_lstrip_chars, H.
Qed.

Lemma replace_invalid_valid filename :
  Forall (fun c => is_invalid c = false) (replace_invalid filename).
Proof.
  unfold replace_invalid. apply Forall_map, Forall_forall. intros c _.
  destruct (is_invalid c) eqn:E; [reflexivity | exact E].
Qed.

Lemma clean_filename_valid filename :
  Forall (fun c => is_invalid c = false) (clean_filename filename)
  /\ clean_filename filename <> [].
Proof.
  unfold clean_filename.
  pose proof (Forall_strip_chars _ (lit ". ") _ (replace_invalid_valid filename))
    as H.
  destruct (strip_chars (lit ". ") (replace_invalid filename)); simpl.
  - split; [| discriminate]. repeat constructor.
  - split; [exact H | discriminate].
Qed.

(** The result of the length limit: the extension whole, after a prefix
    of the name. *)
Lemma limit_length_shape p :
  exists k,
    limit_length p = firstn k (fst (splitext p)) ++ snd (splitext p).
Proof.
  unfold limit_length. destruct (200 <? Z.of_nat (length p)).
  - destruct (splitext p) as [name ext]. cbn [fst snd].
    destruct (slice_from_0 name (200 - Z.of_nat (length ext))) as [k ->].
    now exists k.
  - exists (length (fst (splitext p))).
    now rewrite firstn_all, splitext_app.
Qed.

(** X13. The name [sanitize_filename] returns holds none of the
    characters it is written to remove, and is never the empty
    string. *)
Theorem sanitize_filename_valid filename :
  Forall (fun c => is_invalid c = false) (sanitize_filename filename)
  /\ sanitize_filename filename <> [].
Proof.
  unfold sanitize_filename.
  destruct (clean_filename_valid filename) as [Hvalid Hne].
  set (p := clean_filename filename) in *.
  pose proof (splitext_app p) as Happ. split.
  - destruct (limit_length_shape p) as [k ->].
    rewrite <- Happ in Hvalid. apply Forall_app in Hvalid as [Hn He].
    apply Forall_app. split; [now apply Forall_firstn | assumption].
  - unfold limit_length.
    destruct (Z.ltb_spec 200 (Z.of_nat (length p))) as [Hlong | _];
      [| assumption].
    destruct (splitext p) as [name ext]. cbn [fst snd] in *.
    destruct ext as [| e ext].
    + rewrite app_nil_r in *. subst name.
      rewrite slice_prefix by (simpl; lia).
      destruct p; [contradiction | discriminate].
    + intros E. apply app_eq_nil in E as [_ [=]].
Qed.

(** X14. The length limit of [sanitize_filename] keeps the extension
    whole and cuts the name from the right; the result has at most 200
    characters whenever the extension of the cleaned name has no more
    than 200. *)
Theorem sanitize_filename_length filename :
  (exists k,
      sanitize_filename filename
      = firstn k (fst (splitext (clean_filename filename)))
        ++ snd (splitext (clean_filename filename)))
  /\ (Z.of_nat (length (snd (splitext (clean_filename filename)))) <= 200 ->
      Z.of_nat (length (sanitize_filename filename)) <= 200).
Proof.
  unfold sanitize_filename. set (p := clean_filename filename).
  split; [apply limit_length_shape |].
  intros Hext. unfold limit_length.
  destruct (Z.ltb_spec 200 (Z.of_nat (length p))) as [Hlong | Hfit];
    [| assumption].
  pose proof (splitext_app p) as Happ.
  destruct (splitext p) as [name ext]. cbn [fst snd] in *.
  apply (f_equal (@length _)) in Happ. rewrite length_app in Happ.
  rewrite slice_prefix by lia. rewrite length_app, length_firstn. lia.
Qed.

(** An extension of more than 200 characters defeats the limit: the
    name is cut away and the extension returned whole. *)
Example sanitize_filename_long_extension :
  sanitize_filename (lit "report." ++ repeat 98%N 300)
  = lit "." ++ repeat 98%N 300.
Proof. vm_compute. reflexivity. Qed.

(** Nothing but dots and spaces: the placeholder name. *)
Example sanitize_filename_untitled :
  sanitize_filename (lit " .. . ") = lit "untitled"
  /\ sanitize_filename (lit "a<b>:c?.txt ") = lit "a_b__c_.txt".
Proof. split; vm_compute; reflexivity. Qed.

End UtilsFacts.

(* ================================================================== *)
(** * Closed instances of the statements above *)
(* ================================================================== *)

Lemma summarize_keeps_cached_pipeline_witness :
  _cached_pipeline
    (snd (summarize (fun _ => Ok tt) first_word_run
            (lit "Quick standup. No blockers.") 50 10
            {| _cached_pipeline := Some tt; history := [] |}))
  = Some tt.
Proof.
  apply (summarize_keeps_cached_pipeline (fun _ => Ok tt) first_word_run
           (lit "Quick standup. No blockers.") 50 10
           {| _cached_pipeline := Some tt; history := [] |} tt).
  reflexivity.
Defined.

Lemma summarize_constructs_once_witness :
  exists evs,
    history
      (snd (summarize (fun _ => Raise (PipelineError (lit "no network")))
              first_word_run (lit "Quick standup. No blockers.") 50 10
              {| _cached_pipeline := None; history := [] |}))
    = [] ++ EvLoad :: evs
    /\ ~ In EvLoad evs
    /\ _cached_pipeline
         (snd (summarize (fun _ => Raise (PipelineError (lit "no network")))
                 first_word_run (lit "Quick standup. No blockers.") 50 10
                 {| _cached_pipeline := None; history := [] |}))
       = None.
Proof.
  apply (summarize_constructs_once
           (fun _ => Raise (PipelineError (lit "no network"))) first_word_run
           (lit "Quick standup. No blockers.") 50 10
           {| _cached_pipeline := None; history := [] |});
    reflexivity.
Defined.

Lemma merge_summaries_without_pipeline_witness :
  exists s,
    merge_summaries first_word_run
      [lit "one two three"; lit "four five six"] 4 1
      {| _cached_pipeline := None; history := [] |}
    = (Ok s, {| _cached_pipeline := None; history := [] |})
    /\ Z.of_nat (length (split s)) <= 4.
Proof.
  destruct (merge_summaries_without_pipeline first_word_run
              [lit "one two three"; lit "four five six"] 4 1
              {| _cached_pipeline := None; history := [] |} eq_refl)
    as (s & E & _ & Hlen).
  exists s. split; [exact E |]. apply Hlen; simpl; lia.
Defined.

Lemma hard_split_by_group_size_witness :
  exists groups,
    hard_split (lit "a b c d e f g") 4 = Ok groups
    /\ concat (map split groups) = split (lit "a b c d e f g")
    /\ Forall (fun g => (1 <= length (split g))%nat
                        /\ Z.of_nat (length (split g)) <= 3) groups.
Proof.
  apply (hard_split_by_group_size (lit "a b c d e f g") 4 3).
  - vm_compute. reflexivity.
  - lia.
Defined.

Lemma hard_split_1024_fits_witness :
  Forall (fun g => float_gt_int (times_1_3 (length (split g))) 1024 = false)
         [lit "a b c d e f g"].
Proof.
  apply (hard_split_1024_fits (lit "a b c d e f g")).
  vm_compute. reflexivity.
Defined.

Lemma chunk_text_assembled_witness :
  assembled 4
    (re_split_sentences (lit "One two three four five six seven. Eight nine!"))
    [lit "One two three"; lit "four five six"; lit "seven.";
     lit "Eight nine!"].
Proof.
  destruct (chunk_text_assembled
              (lit "One two three four five six seven. Eight nine!") 4)
    as (chunks & E & H).
  - lia.
  - vm_compute. reflexivity.
  - vm_compute in E. injection E as <-. exact H.
Defined.

Lemma truncate_text_bound_witness :
  truncate_text (lit "The quick brown fox") 12 (lit "...")
  = lit "The quick..."
  /\ Z.of_nat (length (truncate_text (lit "The quick brown fox") 12 (lit "...")))
     <= 12.
Proof.
  destruct (truncate_text_bound (lit "The quick brown fox") 12 (lit "..."))
    as (Hlen & _ & _ & _).
  - simpl. lia.
  - split; [reflexivity | exact Hlen].
Defined.

(* ================================================================== *)
(** * The text report and its export *)
(* ================================================================== *)

Section ExportFacts.

Ltac euclid := zify; Z.to_euclidean_division_equations; lia.

Ltac cont_true :=
  unfold cont; apply andb_true_intro; split; apply N.leb_le; euclid.

Lemma scalar_range c :
  scalar c = true -> (c < 1114112 /\ (c < 55296 \/ 57343 < c))%N.
Proof.
  unfold scalar, is_surrogate. intros H.
  apply andb_prop in H as [Hmax Hsur]. apply N.ltb_lt in Hmax.
  apply negb_true_iff in Hsur. split; [assumption |].
  apply andb_false_iff in Hsur as [Hs | Hs]; apply N.leb_gt in Hs; lia.
Qed.

(** Decoding undoes the encoding of one code point. *)
Lemma decode_encode_char c rest :
  scalar c = true ->
  decode_utf8 (encode_char c ++ rest) = option_map (cons c) (decode_utf8 rest).
Proof.
  intros H. apply scalar_range in H as [Hmax Hs]. unfold encode_char.
  destruct (N.ltb_spec c 128) as [H1 | H1].
  - simpl. apply N.ltb_lt in H1. now rewrite H1.
  - destruct (N.ltb_spec c 2048) as [H2 | H2];
      [| destruct (N.ltb_spec c 65536) as [H3 | H3]].
    + cbn [app decode_utf8].
      replace (192 + c / 64 <? 128)%N with false
        by (symmetry; apply N.ltb_ge; euclid).
      replace (cont 194 223 (192 + c / 64)) with true by (symmetry; cont_true).
      replace (cont 128 191 (128 + c mod 64)) with true by (symmetry; cont_true).
      f_equal. f_equal. euclid.
    + cbn [app decode_utf8].
      replace (224 + c / 4096 <? 128)%N with false
        by (symmetry; apply N.ltb_ge; euclid).
      replace (cont 194 223 (224 + c / 4096)) with false
        by (symmetry; unfold cont; apply andb_false_iff; right;
            apply N.leb_gt; euclid).
      replace (cont 224 239 (224 + c / 4096)) with true by (symmetry; cont_true).
      replace (cont (if (224 + c / 4096 =? 224)%N then 160 else 128)
                 (if (224 + c / 4096 =? 237)%N then 159 else 191)
                 (128 + (c / 64) mod 64)) with true.
      * replace (cont 128 191 (128 + c mod 64)) with true
          by (symmetry; cont_true).
        cbn [andb]. f_equal. f_equal. euclid.
      * symmetry.
        destruct (N.eqb_spec (224 + c / 4096) 224);
          destruct (N.eqb_spec (224 + c / 4096) 237); cont_true.
    + cbn [app decode_utf8].
      replace (240 + c / 262144 <? 128)%N with false
        by (symmetry; apply N.ltb_ge; euclid).
      replace (cont 194 223 (240 + c / 262144)) with false
        by (symmetry; unfold cont; apply andb_false_iff; right;
            apply N.leb_gt; euclid).
      replace (cont 224 239 (240 + c / 262144)) with false
        by (symmetry; unfold cont; apply andb_false_iff; right;
            apply N.leb_gt; euclid).
      replace (cont 240 244 (240 + c / 262144)) with true
        by (symmetry; cont_true).
      replace (cont (if (240 + c / 262144 =? 240)%N then 144 else 128)
                 (if (240 + c / 262144 =? 244)%N then 143 else 191)
                 (128 + (c / 4096) mod 64)) with true.
      * replace (cont 128 191 (128 + (c / 64) mod 64)) with true
          by (symmetry; cont_true).
        replace (cont 128 191 (128 + c mod 64)) with true
          by (symmetry; cont_true).
        cbn [andb]. f_equal. f_equal. euclid.
      * symmetry.
        destruct (N.eqb_spec (240 + c / 262144) 240);
          destruct (N.eqb_spec (240 + c / 262144) 244); cont_true.
Qed.

Lemma encode_char_bytes c :
  scalar c = true -> Forall (fun b => (b < 256)%N) (encode_char c).
Proof.
  intros H. apply scalar_range in H as [Hmax _]. unfold encode_char.
  destruct (N.ltb_spec c 128); [repeat constructor; lia |].
  destruct (N.ltb_spec c 2048); [repeat constructor; euclid |].
  destruct (N.ltb_spec c 65536); repeat constructor; euclid.
Qed.

Lemma scalar_not_surrogate c : scalar c = true -> is_surrogate c = false.
Proof.
  unfold scalar. intros H. apply andb_prop in H as [_ H].
  now apply negb_true_iff in H.
Qed.

(** On a string of scalar values the encoder returns the bytes of its
    code points, one after the other. *)
Lemma encode_from_scalar whole s : forall i,
  forallb scalar s = true ->
  encode_from whole i s = Returns (flat_map encode_char s).
Proof.
  induction s as [| c s IH]; intros i H; simpl in *; [reflexivity |].
  apply andb_prop in H as [Hc Hs].
  now rewrite (scalar_not_surrogate c Hc), IH.
Qed.

Lemma decode_encoded s :
  forallb scalar s = true -> decode_utf8 (flat_map encode_char s) = Some s.
Proof.
  induction s as [| c s IH]; intros H; simpl in *; [reflexivity |].
  apply andb_prop in H as [Hc Hs].
  now rewrite decode_encode_char, IH.
Qed.

Lemma encoded_bytes s :
  forallb scalar s = true ->
  Forall (fun b => (b < 256)%N) (flat_map encode_char s).
Proof.
  induction s as [| c s IH]; intros H; simpl in *; [constructor |].
  apply andb_prop in H as [Hc Hs].
  apply Forall_app. split; [now apply encode_char_bytes | now apply IH].
Qed.

(** A surrogate anywhere stops the encoder. *)
Lemma encode_from_surrogate whole s : forall i,
  existsb is_surrogate s = true ->
  exists start stop,
    encode_from whole i s
    = Raises (UnicodeEncodeError (lit "utf-8") whole start stop
                (lit "surrogates not allowed")).
Proof.
  induction s as [| c s IH]; intros i H; simpl in *; [discriminate |].
  destruct (is_surrogate c) eqn:Hc.
  - now eexists _, _.
  - simpl in H. destruct (IH (S i) H) as (start & stop & ->).
    now exists start, stop.
Qed.

Lemma encode_error_message whole start stop :
  exists msg,
    str_of_error (UnicodeEncodeError (lit "utf-8") whole start stop
                    (lit "surrogates not allowed"))
    = lit "'utf-8' codec can't encode character" ++ msg.
Proof.
  unfold str_of_error. destruct (stop =? S start)%nat.
  - match goal with
    | |- exists msg, _ ++ _ ++ _ ++ ?X = _ => exists (lit " '" ++ X)
    end.
    reflexivity.
  - match goal with
    | |- exists msg, _ ++ _ ++ _ ++ ?X = _ => exists (lit "s in position " ++ X)
    end.
    reflexivity.
Qed.

Lemma join_middle sep l1 x l2 :
  l1 <> [] -> l2 <> [] ->
  join sep (l1 ++ x :: l2) = join sep l1 ++ sep ++ x ++ sep ++ join sep l2.
Proof.
  intros H1 H2. induction l1 as [| y l1 IH]; [contradiction |].
  destruct l1 as [| z l1].
  - destruct l2; [contradiction | reflexivity].
  - change (join sep ((y :: z :: l1) ++ x :: l2))
      with (y ++ sep ++ join sep ((z :: l1) ++ x :: l2)).
    rewrite IH by discriminate.
    change (join sep (y :: z :: l1)) with (y ++ sep ++ join sep (z :: l1)).
    now rewrite <- !app_assoc.
Qed.

(** The ratio is always computed: the division is only reached with a
    transcript that has a word. With no word in the transcript it
    prints as 0.0, with no word in the summary as 100.0. *)
Lemma compression_ratio_returns ws wt :
  exists ratio,
    compression_ratio ws wt = Returns ratio
    /\ (wt = 0%nat -> format_1f ratio = lit "0.0")
    /\ (ws = 0%nat -> wt <> 0%nat -> format_1f ratio = lit "100.0").
Proof.
  unfold compression_ratio, true_div.
  destruct wt as [| wt].
  - exists (PyInt 0). split; [reflexivity |]. split.
    + intros _. vm_compute. reflexivity.
    + intros _ H. contradiction.
  - change (0 <? S wt)%nat with true. cbv iota.
    destruct (Z.eqb_spec (Z.of_nat (S wt)) 0) as [E | _]; [lia |].
    eexists. split; [reflexivity |]. split; [discriminate |].
    intros -> _. unfold rounded_quotient.
    change (Z.abs (Z.of_nat 0)) with 0. rewrite Z.mul_0_l, Zdiv_0_l, Zmod_0_l.
    change (Z.of_nat 0 <? 0) with false.
    replace (Z.of_nat (S wt) <? 0) with false by (symmetry; apply Z.ltb_ge; lia).
    vm_compute. reflexivity.
Qed.

Lemma decimal_digits_ascii d : ascii_only (decimal_digits d) = true.
Proof. induction d; simpl; auto. Qed.

Lemma str_of_N_ascii n : ascii_only (str_of_N n) = true.
Proof. apply decimal_digits_ascii. Qed.

Lemma format_1f_ascii x : ascii_only (format_1f x) = true.
Proof.
  assert (H : forall f, ascii_only (format_1f_float f) = true).
  { intros f. unfold format_1f_float, ascii_only.
    destruct (Prim2SF f) as [s | s | | s m e]; try destruct s;
      rewrite ?forallb_app; try reflexivity;
      repeat (apply andb_true_intro; split);
      try reflexivity; apply str_of_N_ascii. }
  destruct x; apply H.
Qed.

(** The report, line by line. *)
Lemma format_content_lines timestamp transcript summary include_timestamp :
  exists ratio,
    format_content timestamp transcript summary include_timestamp
    = Returns
        (join [10%N]
           (report_head timestamp include_timestamp
            ++ summary :: report_middle
            ++ transcript :: report_counts transcript summary
            ++ [lit "Compression Ratio: " ++ ratio ++ lit "%"; lit "";
                repeat 61%N 80]))
    /\ ascii_only ratio = true
    /\ (blank transcript = true -> ratio = lit "0.0")
    /\ (blank summary = true -> blank transcript = false ->
        ratio = lit "100.0").
Proof.
  destruct (compression_ratio_returns (length (split summary))
              (length (split transcript))) as (ratio & E & H0 & H100).
  exists (format_1f ratio). unfold format_content. rewrite E. split; [| split; [| split]].
  - unfold report_head, report_middle, report_counts.
    destruct include_timestamp; reflexivity.
  - apply format_1f_ascii.
  - intros Hb. apply H0. now rewrite split_blank.
  - intros Hs Ht. apply H100.
    + now rewrite split_blank.
    + intros E0. apply length_zero_iff_nil, split_nil_iff_blank in E0.
      congruence.
Qed.

(** X15. [format_content] never raises (the division of the word counts
    is only reached when the transcript has a word). The report holds,
    in this order and each on lines of its own, the heading, the
    summary verbatim, the transcript heading, the transcript verbatim,
    the two word counts and the compression ratio, and ends with the
    closing rule. The ratio prints as 0.0 when the transcript has no
    word and as 100.0 when only the summary has none. *)
Theorem format_content_report timestamp transcript summary include_timestamp :
  exists report ratio,
    format_content timestamp transcript summary include_timestamp
    = Returns report
    /\ report
       = join [10%N] (report_head timestamp include_timestamp)
         ++ [10%N] ++ summary ++ [10%N]
         ++ join [10%N] report_middle
         ++ [10%N] ++ transcript ++ [10%N]
         ++ join [10%N] (report_counts transcript summary)
         ++ [10%N] ++ lit "Compression Ratio: " ++ ratio ++ lit "%"
         ++ [10%N; 10%N] ++ repeat 61%N 80
    /\ (blank transcript = true -> ratio = lit "0.0")
    /\ (blank summary = true -> blank transcript = false ->
        ratio = lit "100.0").
Proof.
  destruct (format_content_lines timestamp transcript summary include_timestamp)
    as (ratio & E & _ & H0 & H100).
  eexists _, ratio. split; [exact E |]. split; [| now split].
  rewrite join_middle;
    [| unfold report_head; discriminate | unfold report_middle; discriminate].
  rewrite join_middle;
    [| unfold report_middle; discriminate | unfold report_counts; discriminate].
  change (report_counts transcript summary
          ++ [lit "Compression Ratio: " ++ ratio ++ lit "%"; lit "";
              repeat 61%N 80])
    with (report_counts transcript summary
          ++ (lit "Compression Ratio: " ++ ratio ++ lit "%")
             :: [lit ""; repeat 61%N 80]).
  rewrite join_middle; [| unfold report_counts; discriminate | discriminate].
  change (join [10%N] [lit ""; repeat 61%N 80]) with (10%N :: repeat 61%N 80).
  now rewrite <- !app_assoc.
Qed.

Lemma ascii_scalar s : ascii_only s = true -> forallb scalar s = true.
Proof.
  unfold ascii_only. rewrite !forallb_forall. intros H c Hc.
  specialize (H c Hc). apply N.ltb_lt in H. unfold scalar, is_surrogate.
  apply andb_true_intro. split; [apply N.ltb_lt; lia |].
  apply negb_true_iff, andb_false_iff. left. apply N.leb_gt. lia.
Qed.

Lemma forallb_join (P : char -> bool) sep l :
  forallb P sep = true ->
  Forall (fun x => forallb P x = true) l ->
  forallb P (join sep l) = true.
Proof.
  intros Hsep H. induction H as [| x l Hx Hl IH]; [reflexivity |].
  destruct l as [| y l]; [exact Hx |].
  change (join sep (x :: y :: l)) with (x ++ sep ++ join sep (y :: l)).
  now rewrite !forallb_app, Hx, Hsep, IH.
Qed.

Lemma existsb_join (P : char -> bool) sep l x :
  In x l -> existsb P x = true -> existsb P (join sep l) = true.
Proof.
  intros Hin Hx. induction l as [| y l IH]; [contradiction |].
  destruct l as [| z l].
  - destruct Hin as [-> | []]. exact Hx.
  - change (join sep (y :: z :: l)) with (y ++ sep ++ join sep (z :: l)).
    rewrite !existsb_app. destruct Hin as [-> | Hin].
    + now rewrite Hx.
    + rewrite IH by assumption. now rewrite !orb_true_r.
Qed.

(** X16. When the transcript, the summary and the timestamp hold only
    code points that UTF-8 can carry (no surrogate), [export_to_txt]
    returns bytes, and decoding them as UTF-8 gives back exactly the
    report of [format_content]. Empty or blank texts are no exception:
    they are exported, not refused. *)
Theorem export_to_txt_round_trip timestamp transcript summary include_timestamp :
  forallb scalar timestamp = true ->
  forallb scalar transcript = true ->
  forallb scalar summary = true ->
  exists content file_bytes,
    format_content timestamp transcript summary include_timestamp
    = Returns content
    /\ export_to_txt timestamp transcript summary include_timestamp
       = Returns file_bytes
    /\ Forall (fun b => (b < 256)%N) file_bytes
    /\ decode_utf8 file_bytes = Some content.
Proof.
  intros Hts Ht Hs.
  destruct (format_content_lines timestamp transcript summary include_timestamp)
    as (ratio & E & Hratio & _).
  eexists _, _. split; [exact E |].
  match type of E with _ = Returns ?c => set (content := c) in * end.
  assert (Hcontent : forallb scalar content = true).
  { subst content. apply forallb_join; [reflexivity |].
    unfold report_head, report_middle, report_counts.
    destruct include_timestamp; cbn [app];
      repeat (apply Forall_cons || apply Forall_nil);
      rewrite ?forallb_app;
      repeat (apply andb_true_intro; split);
      try assumption; try reflexivity;
      apply ascii_scalar; try assumption; apply str_of_N_ascii. }
  unfold export_to_txt. rewrite E. unfold encode_utf8.
  rewrite encode_from_scalar by assumption.
  split; [reflexivity |]. split; [now apply encoded_bytes |].
  now apply decode_encoded.
Qed.

(** X17. When the transcript or the summary holds a surrogate code
    point, [export_to_txt] returns no bytes: it raises an [Exception]
    whose message is "Error creating TXT file: " followed by the
    codec's own complaint. *)
Theorem export_to_txt_surrogate timestamp transcript summary include_timestamp :
  existsb is_surrogate transcript || existsb is_surrogate summary = true ->
  exists msg,
    export_to_txt timestamp transcript summary include_timestamp
    = Raises (Exception_
                (lit "Error creating TXT file: "
                 ++ lit "'utf-8' codec can't encode character" ++ msg)).
Proof.
  intros H.
  destruct (format_content_lines timestamp transcript summary include_timestamp)
    as (ratio & E & _).
  match type of E with _ = Returns ?c => set (content := c) in * end.
  assert (Hcontent : existsb is_surrogate content = true).
  { subst content. apply orb_prop in H as [H | H].
    - apply existsb_join with (x := transcript); [| assumption].
      apply in_or_app. right. right.
      apply in_or_app. right. now left.
    - apply existsb_join with (x := summary); [| assumption].
      apply in_or_app. right. now left. }
  unfold export_to_txt. rewrite E. unfold encode_utf8.
  destruct (encode_from_surrogate content content 0 Hcontent)
    as (start & stop & ->).
  destruct (encode_error_message content start stop) as (msg & ->).
  now exists msg.
Qed.

End ExportFacts.

Lemma export_to_txt_round_trip_witness :
  exists content file_bytes,
    format_content (lit "November 04, 2026 at 09:30 AM")
      (lit "Caf" ++ [233; 32; 20013; 25991; 32; 127897]%N) (lit "Caf" ++ [233%N])
      true
    = Returns content
    /\ export_to_txt (lit "November 04, 2026 at 09:30 AM")
         (lit "Caf" ++ [233; 32; 20013; 25991; 32; 127897]%N)
         (lit "Caf" ++ [233%N]) true
       = Returns file_bytes
    /\ Forall (fun b => (b < 256)%N) file_bytes
    /\ decode_utf8 file_bytes = Some content.
Proof.
  apply (export_to_txt_round_trip (lit "November 04, 2026 at 09:30 AM")
           (lit "Caf" ++ [233; 32; 20013; 25991; 32; 127897]%N)
           (lit "Caf" ++ [233%N]) true); reflexivity.
Defined.

Lemma export_to_txt_surrogate_witness :
  exists msg,
    export_to_txt (lit "") (lit "ab" ++ [56448%N]) (lit "x") false
    = Raises (Exception_
                (lit "Error creating TXT file: "
                 ++ lit "'utf-8' codec can't encode character" ++ msg)).
Proof.
  apply (export_to_txt_surrogate (lit "") (lit "ab" ++ [56448%N]) (lit "x")
           false).
  reflexivity.
Defined.

(** Five words summarized in two: the ratio line reads 60.0%. *)
Example format_content_ratio :
  format_content (lit "") (lit "One two three four five") (lit "One two") false
  = Returns
      (join [10%N]
         (report_head (lit "") false
          ++ lit "One two" :: report_middle
          ++ lit "One two three four five"
             :: [lit ""; repeat 45%N 80; lit "STATISTICS"; repeat 45%N 80;
                 lit "Transcript Word Count: 5";
                 lit "Summary Word Count: 2";
                 lit "Compression Ratio: 60.0%";
                 lit ""; repeat 61%N 80])).
Proof.
  vm_compute. reflexivity.
Qed.

(** The surrogate of the transcript is reported at its position in the
    whole report, not in the transcript. *)
Example export_to_txt_surrogate_position :
  export_to_txt (lit "") (lit "ab" ++ [56448%N]) (lit "x") false
  = Raises (Exception_
              (lit "Error creating TXT file: 'utf-8' codec can't encode character '\udc80' in position 551: surrogates not allowed")).
Proof.
  vm_compute. reflexivity.
Qed.
